(** * An in-memory key-value store with nested transactions

    Shallow embedding of [python-task.py]: the class [InMemoryDB] (a stack
    of dictionaries, one per open transaction, with a marker object for
    deleted keys), the command handlers, and the read-eval-print loop
    [main].

    Conventions of the embedding.
    - A Python [str] is a Rocq [string]; a character is one of the 8-bit
      code points of [ascii].
    - A [dict] is a [gmap]: the program never observes the insertion order
      of a dictionary (the only iteration over [items()] writes each pair
      into another dictionary, and keys are collected into a [set]).
    - A [set] of keys is a [gset]; iterating over it visits [elements].
    - The list [self._layers] is kept in the order of the source: the base
      layer has index 0 and the active layer is the last element.
    - An uncaught Python exception ([IndexError], [ValueError], or one
      that [input] raises and [main] does not catch) is the result [None].
    - Writing to standard output is taken to succeed. *)

From Stdlib Require Import String Ascii ZArith List Sorting.Sorted.
From stdpp Require Import base option list gmap sets strings sorting pretty.

Local Open Scope string_scope.
Local Open Scope list_scope.
Local Open Scope Z_scope.

(** ** Python lists: indexing with negative indices, [pop] *)

Section py_list.
Context {A : Type}.

(** Position denoted by the Python index [i] in [l], when it is in range. *)
Definition py_index (l : list A) (i : Z) : option nat :=
  let n := Z.of_nat (length l) in
  let j := if bool_decide (i < 0) then i + n else i in
  if bool_decide (0 <= j < n) then Some (Z.to_nat j) else None.

(** [l[i]]; [None] stands for [IndexError]. *)
Definition getitem (l : list A) (i : Z) : option A :=
  j ← py_index l i; l !! j.

(** In-place change of the object stored at [l[i]]. *)
Definition mutate_item (l : list A) (i : Z) (f : A → A) : option (list A) :=
  j ← py_index l i; x ← l !! j; Some (<[j := f x]> l).

(** [l.pop()]: the last element and the shortened list. *)
Definition pop (l : list A) : option (A * list A) :=
  x ← last l; Some (x, take (length l - 1)%nat l).
End py_list.

(** ** The data model *)

(** What a layer stores under a key: a string, or the marker [DELETED]. *)
Inductive entry :=
  | Real (value : string)
  | DELETED.

Global Instance entry_eq_dec : EqDecision entry.
Proof. solve_decision. Defined.

Abbreviation layer := (gmap string entry).

Record InMemoryDB := mkDB { _layers : list layer }.

(** ** The methods of [InMemoryDB] *)

Definition __init__ : InMemoryDB := mkDB [∅].

Definition _iter_layers_top_down (self : InMemoryDB) : list layer :=
  reverse (_layers self).

(** The [for] loop of [_effective_get] over the layers it is handed. *)
Fixpoint _effective_get_loop (key : string) (layers : list layer)
  : bool * option string :=
  match layers with
  | [] => (false, None)
  | l :: rest =>
      match l !! key with
      | Some DELETED => (false, None)
      | Some (Real value) => (true, Some value)
      | None => _effective_get_loop key rest
      end
  end.

Definition _effective_get (self : InMemoryDB) (key : string)
  : bool * option string :=
  _effective_get_loop key (_iter_layers_top_down self).

Definition set_value (self : InMemoryDB) (key value : string)
  : option InMemoryDB :=
  mkDB <$> mutate_item (_layers self) (-1) (λ d, <[key := Real value]> d).

Definition get_value (self : InMemoryDB) (key : string) : option string :=
  let '(exists_, value) := _effective_get self key in
  if exists_ then value else None.

Definition unset_value (self : InMemoryDB) (key : string)
  : option InMemoryDB :=
  mkDB <$> mutate_item (_layers self) (-1) (λ d, <[key := DELETED]> d).

Definition begin (self : InMemoryDB) : InMemoryDB :=
  mkDB (_layers self ++ [∅]).

Definition rollback (self : InMemoryDB) : option (bool * InMemoryDB) :=
  if bool_decide (length (_layers self) = 1%nat) then Some (false, self)
  else '(_, ls) ← pop (_layers self); Some (true, mkDB ls).

(** The loop [for k, v in top.items(): below[k] = v]. *)
Definition commit_loop (top below : layer) : layer :=
  map_fold (λ k v below, <[k := v]> below) below top.

Definition commit (self : InMemoryDB) : option (bool * InMemoryDB) :=
  if bool_decide (length (_layers self) = 1%nat) then Some (false, self)
  else
    top ← getitem (_layers self) (-1);
    ls ← mutate_item (_layers self) (-2) (commit_loop top);
    '(_, ls') ← pop ls;
    Some (true, mkDB ls').

Definition _all_keys (self : InMemoryDB) : gset string :=
  foldl (λ keys l, keys ∪ dom l) ∅ (_layers self).

Definition count_value (self : InMemoryDB) (value : string) : nat :=
  foldl (λ count key,
           let '(exists_, eff) := _effective_get self key in
           if exists_ && bool_decide (eff = Some value)
           then (count + 1)%nat else count)
        0%nat (elements (_all_keys self)).

(** The order of [list.sort] on strings: lexicographic on code points. *)
Definition str_le (s1 s2 : string) : Prop := String.leb s1 s2 = true.
Definition str_lt (s1 s2 : string) : Prop := String.ltb s1 s2 = true.

Global Instance str_le_dec : RelDecision str_le.
Proof. intros s1 s2. unfold str_le. apply _. Defined.

Global Instance str_lt_dec : RelDecision str_lt.
Proof. intros s1 s2. unfold str_lt. apply _. Defined.

(** [list.sort()] on a list of strings.  Any sorting algorithm gives the
    same list, the order being total and antisymmetric. *)
Definition sort (l : list string) : list string := merge_sort str_le l.

Definition find_keys_by_value (self : InMemoryDB) (value : string)
  : list string :=
  let found :=
    foldl (λ found key,
             let '(exists_, eff) := _effective_get self key in
             if exists_ && bool_decide (eff = Some value)
             then found ++ [key] else found)
          [] (elements (_all_keys self)) in
  sort found.

(** ** Strings: [isspace], [strip], [split], [upper] *)

(** [str.isspace] on the code points below 256. *)
Definition isspace (c : ascii) : bool :=
  let n := Z.of_N (N_of_ascii c) in
  bool_decide (9 <= n <= 13) || bool_decide (28 <= n <= 32)
  || bool_decide (n = 133) || bool_decide (n = 160).

Fixpoint lstrip (s : string) : string :=
  match s with
  | EmptyString => EmptyString
  | String c s' => if isspace c then lstrip s' else s
  end.

Fixpoint rstrip (s : string) : string :=
  match s with
  | EmptyString => EmptyString
  | String c s' =>
      match rstrip s' with
      | EmptyString => if isspace c then EmptyString else String c EmptyString
      | r => String c r
      end
  end.

(** [s.strip()] *)
Definition strip (s : string) : string := rstrip (lstrip s).

(** [s.split()]: [tok] is the token being read. *)
Fixpoint split_loop (tok : string) (s : string) : list string :=
  match s with
  | EmptyString => if bool_decide (tok = "") then [] else [tok]
  | String c s' =>
      if isspace c
      then (if bool_decide (tok = "") then split_loop "" s'
            else tok :: split_loop "" s')
      else split_loop (tok +:+ String c "") s'
  end.

Definition split (s : string) : list string := split_loop "" s.

(** [s.upper()], character by character, on the code points below 256:
    a-z and the letters 224-254 other than 247 (the division sign) go 32
    down; 223 (sharp s) becomes the two letters SS.  The two remaining code
    points that Python changes, 181 (micro sign) and 255 (y with diaeresis),
    become code points above 255 (924 and 376), which a [string] cannot
    hold: they are left as they are, and like their images are no letter of
    a command name. *)
Definition upper_char (c : ascii) : string :=
  let n := Z.of_N (N_of_ascii c) in
  if bool_decide (97 <= n <= 122)
     || bool_decide (224 <= n <= 254) && negb (bool_decide (n = 247))
  then String (ascii_of_N (N_of_ascii c - 32)) EmptyString
  else if bool_decide (n = 223) then "SS"
  else String c EmptyString.

Fixpoint upper (s : string) : string :=
  match s with
  | EmptyString => EmptyString
  | String c s' => upper_char c +:+ upper s'
  end.

(** [sep.join(l)] *)
Definition join (sep : string) (l : list string) : string := String.concat sep l.

(** ** The interpreter: what it prints and which store methods it calls *)

Inductive output :=
  | Prompt (s : string)   (* written by [input(s)] *)
  | Print (s : string).   (* one call of [print] *)

(** The methods of the store a handler may call. *)
Inductive core_call :=
  | CallSet (key value : string)
  | CallGet (key : string)
  | CallUnset (key : string)
  | CallCount (value : string)
  | CallFind (value : string)
  | CallBegin
  | CallRollback
  | CallCommit.

(** The state of a session: the object [db], what was written to standard
    output, and the calls made on [db], both oldest first. *)
Record world := mkWorld {
  w_db : InMemoryDB;
  w_out : list output;
  w_calls : list core_call
}.

(** Computations of the interpreter; [None] is an uncaught exception. *)
Definition M (A : Type) : Type := world → option (A * world).

Definition ret {A} (a : A) : M A := λ w, Some (a, w).

Definition bind {A B} (m : M A) (k : A → M B) : M B :=
  λ w, match m w with
       | Some (a, w') => k a w'
       | None => None
       end.

Notation "'let*' x ':=' m 'in' k" := (bind m (λ x, k))
  (at level 10, x name, m at level 100, k at level 200).
Notation "'let*' '_' ':=' m 'in' k" := (bind m (λ _, k))
  (at level 10, m at level 100, k at level 200).

Definition print (s : string) : M unit :=
  λ w, Some (tt, mkWorld (w_db w) (w_out w ++ [Print s]) (w_calls w)).

Definition prompt (s : string) : M unit :=
  λ w, Some (tt, mkWorld (w_db w) (w_out w ++ [Prompt s]) (w_calls w)).

(** [args[i]] *)
Definition arg (args : list string) (i : Z) : M string :=
  λ w, a ← getitem args i; Some (a, w).

(** A call of a method of [db] that may change it. *)
Definition call {A} (c : core_call) (f : InMemoryDB → option (A * InMemoryDB))
  : M A :=
  λ w, '(a, db) ← f (w_db w);
       Some (a, mkWorld db (w_out w) (w_calls w ++ [c])).

(** A call of a method of [db] that only reads it. *)
Definition query {A} (c : core_call) (f : InMemoryDB → A) : M A :=
  call c (λ db, Some (f db, db)).

(** ** The command handlers *)

Definition handle_set (args : list string) : M bool :=
  if bool_decide (length args ≠ 2%nat) then ret false
  else
    let* a0 := arg args 0 in
    let* a1 := arg args 1 in
    let* _ := call (CallSet a0 a1)
                (λ db, db' ← set_value db a0 a1; Some (tt, db')) in
    ret true.

Definition handle_get (args : list string) : M bool :=
  if bool_decide (length args ≠ 1%nat) then ret false
  else
    let* a0 := arg args 0 in
    let* value := query (CallGet a0) (λ db, get_value db a0) in
    let* _ := print (match value with Some v => v | None => "NULL" end) in
    ret true.

Definition handle_unset (args : list string) : M bool :=
  if bool_decide (length args ≠ 1%nat) then ret false
  else
    let* a0 := arg args 0 in
    let* _ := call (CallUnset a0)
                (λ db, db' ← unset_value db a0; Some (tt, db')) in
    ret true.

Definition handle_counts (args : list string) : M bool :=
  if bool_decide (length args ≠ 1%nat) then ret false
  else
    let* a0 := arg args 0 in
    let* n := query (CallCount a0) (λ db, count_value db a0) in
    let* _ := print (pretty n) in
    ret true.

Definition handle_find (args : list string) : M bool :=
  if bool_decide (length args ≠ 1%nat) then ret false
  else
    let* a0 := arg args 0 in
    let* keys := query (CallFind a0) (λ db, find_keys_by_value db a0) in
    let* _ := print (join " " keys) in
    ret true.

Definition handle_begin (args : list string) : M bool :=
  if bool_decide (length args ≠ 0%nat) then ret false
  else
    let* _ := call CallBegin (λ db, Some (tt, begin db)) in
    ret true.

Definition handle_rollback (args : list string) : M bool :=
  if bool_decide (length args ≠ 0%nat) then ret false
  else
    let* ok := call CallRollback rollback in
    let* _ := (if negb ok then print "NO TRANSACTION" else ret tt) in
    ret true.

Definition handle_commit (args : list string) : M bool :=
  if bool_decide (length args ≠ 0%nat) then ret false
  else
    let* ok := call CallCommit commit in
    let* _ := (if negb ok then print "NO TRANSACTION" else ret tt) in
    ret true.

Definition COMMANDS : gmap string (list string → M bool) :=
  list_to_map
    [ ("SET", handle_set);
      ("GET", handle_get);
      ("UNSET", handle_unset);
      ("COUNTS", handle_counts);
      ("FIND", handle_find);
      ("BEGIN", handle_begin);
      ("ROLLBACK", handle_rollback);
      ("COMMIT", handle_commit) ].

(** ** The loop of [main] *)

(** The body of the [try] once [input] has returned [raw]: [Some code] when
    [main] returns [code], [None] when the loop goes on.  Unpacking an empty
    list of tokens would raise [ValueError]. *)
Definition loop_body (raw : string) : M (option Z) :=
  let line := strip raw in
  if bool_decide (line = "") then ret None
  else
    match split line with
    | [] => λ _, None
    | cmd_name :: parts =>
        let cmd := upper cmd_name in
        if bool_decide (cmd = "END") then ret (Some 0)
        else
          match COMMANDS !! cmd with
          | None => let* _ := print "ERROR" in ret None
          | Some handler =>
              let* ok := handler parts in
              if negb ok then let* _ := print "ERROR" in ret None
              else ret None
          end
    end.

(** The outcomes of a call of [input]: it returns a line; it is interrupted
    while it waits ([KeyboardInterrupt]); it raises an exception that [main]
    does not catch, such as [UnicodeDecodeError] on bytes that do not
    decode; the end of the list is the end of the input ([EOFError]).  An
    interrupt that arrives while a line is being handled is not part of the
    model. *)
Inductive stdin_event :=
  | Line (raw : string)
  | Interrupt
  | InputError.

Fixpoint main_loop (stdin : list stdin_event) : M Z :=
  let* _ := prompt "> " in
  match stdin with
  | [] => ret 0
  | Interrupt :: _ => ret 130
  | InputError :: _ => λ _, None
  | Line raw :: rest =>
      let* r := loop_body raw in
      match r with
      | Some code => ret code
      | None => main_loop rest
      end
  end.

Definition main (stdin : list stdin_event) : option (Z * world) :=
  main_loop stdin (mkWorld __init__ [] []).

(** ** One call on the store, as a step of a state machine *)

(** The effect of a call on the store; [None] when the call raises. *)
Definition step (c : core_call) (db : InMemoryDB) : option InMemoryDB :=
  match c with
  | CallSet key value => set_value db key value
  | CallUnset key => unset_value db key
  | CallBegin => Some (begin db)
  | CallRollback => snd <$> rollback db
  | CallCommit => snd <$> commit db
  | CallGet _ | CallCount _ | CallFind _ => Some db
  end.

Fixpoint steps (cs : list core_call) (db : InMemoryDB) : option InMemoryDB :=
  match cs with
  | [] => Some db
  | c :: cs' => db' ← step c db; steps cs' db'
  end.

(** ** Vocabulary of the statements *)

(** [e] is what the topmost layer of [ls] that has [key] holds for it. *)
Definition topmost (ls : list layer) (key : string) (e : entry) : Prop :=
  ∃ lower l upper,
    ls = lower ++ l :: upper ∧ l !! key = Some e ∧
    Forall (λ u : layer, u !! key = None) upper.

(** No layer of [ls] has [key]. *)
Definition in_no_layer (ls : list layer) (key : string) : Prop :=
  Forall (λ u : layer, u !! key = None) ls.

(** The number of layers a call leaves, from the number [n] it finds. *)
Definition depth_after (c : core_call) (n : nat) : nat :=
  match c with
  | CallBegin => S n
  | CallRollback | CallCommit => if bool_decide (n = 1%nat) then 1%nat else (n - 1)%nat
  | _ => n
  end.

(** The table of commands of the specification: name and number of
    arguments. *)
Definition spec_command_table : list (string * nat) :=
  [ ("SET", 2%nat); ("GET", 1%nat); ("UNSET", 1%nat); ("COUNTS", 1%nat);
    ("FIND", 1%nat); ("BEGIN", 0%nat); ("ROLLBACK", 0%nat);
    ("COMMIT", 0%nat); ("END", 0%nat) ].

(** The first token of the line names, whatever its case, a command of the
    table, and the number of the other tokens is not the one of the table. *)
Definition wrong_arity (raw : string) : Prop :=
  ∃ name args n,
    split (strip raw) = name :: args ∧
    (upper name, n) ∈ spec_command_table ∧ length args ≠ n.

(** The first token of the line names no command of the table. *)
Definition unknown_command (raw : string) : Prop :=
  ∃ name args,
    split (strip raw) = name :: args ∧ upper name ∉ spec_command_table.*1.

(** The first token of the line is END, whatever its case. *)
Definition names_end (raw : string) : Prop :=
  ∃ name args, split (strip raw) = name :: args ∧ upper name = "END".

(** The line is answered by ERROR and nothing else happens: the loop goes
    on with the same store and no call was made on it. *)
Definition rejected (raw : string) (w : world) : Prop :=
  loop_body raw w
  = Some (None, mkWorld (w_db w) (w_out w ++ [Print "ERROR"]) (w_calls w)).

(** The line is empty or made of whitespace only. *)
Fixpoint isblank (s : string) : bool :=
  match s with
  | EmptyString => true
  | String c s' => isspace c && isblank s'
  end.

(** The computation [m] succeeds from [w] with result [True], having made
    the one call [c] on the store and written [out]. *)
Definition performs (c : core_call) (m : M bool) (w : world) : Prop :=
  ∃ db' out,
    m w = Some (true, mkWorld db' (w_out w ++ out) (w_calls w ++ [c])) ∧
    step c (w_db w) = Some db'.

(** Whether a call closes a transaction. *)
Definition closes (c : core_call) : bool :=
  match c with
  | CallRollback | CallCommit => true
  | _ => false
  end.

(** The number of layers opened and not yet closed after the calls [cs],
    counted from [d] at the start; [None] when some [rollback] or [commit]
    of [cs] meets the count 1, that is, would close a layer that was there
    before the [d] counted ones, or the lowest of them.  The calls [cs] are
    balanced when [txn_depth cs 1 = Some 1]: each [rollback] or [commit] of
    [cs] closes a transaction that a [begin] earlier in [cs] opened and
    that is still open, and no transaction opened in [cs] is open at its
    end. *)
Fixpoint txn_depth (cs : list core_call) (d : nat) : option nat :=
  match cs with
  | [] => Some d
  | c :: cs' =>
      if closes c then
        (if bool_decide (d ≤ 1)%nat then None else txn_depth cs' (d - 1)%nat)
      else txn_depth cs' (depth_after c d)
  end.

(** Whether the first token of the line is END, whatever its case. *)
Definition is_end (raw : string) : bool :=
  match split (strip raw) with
  | name :: _ => bool_decide (upper name = "END")
  | [] => false
  end.

(** Whether [main] returns on meeting the event. *)
Definition stops (ev : stdin_event) : bool :=
  match ev with
  | Interrupt => true
  | Line raw => is_end raw
  | InputError => false
  end.

(** What becomes of [main], read off the outcomes of [input] alone: the
    code it returns, 0 at the first END line or at the end of the input and
    130 at an interrupt, or [None] when [input] raises before that. *)
Fixpoint expected_code (stdin : list stdin_event) : option Z :=
  match stdin with
  | [] => Some 0
  | Interrupt :: _ => Some 130
  | InputError :: _ => None
  | Line raw :: rest => if is_end raw then Some 0 else expected_code rest
  end.

(** No character of the string is whitespace. *)
Fixpoint nospace (s : string) : bool :=
  match s with
  | EmptyString => true
  | String c s' => negb (isspace c) && nospace s'
  end.

(** * Properties *)

(** ** Python lists *)

Section py_list_facts.
Context {A : Type}.
Implicit Types (l : list A) (x y : A).

Lemma py_index_last l x : py_index (l ++ [x]) (-1) = Some (length l).
Proof.
  unfold py_index. rewrite length_app. cbn [length].
  rewrite (bool_decide_eq_true_2 (-1 < 0)) by lia.
  rewrite bool_decide_eq_true_2 by lia.
  f_equal. lia.
Qed.

Lemma py_index_nil (i : Z) : py_index (@nil A) i = None.
Proof.
  unfold py_index. cbn [length].
  repeat case_bool_decide; auto; lia.
Qed.

Lemma getitem_last l x : getitem (l ++ [x]) (-1) = Some x.
Proof.
  unfold getitem. rewrite py_index_last. cbn.
  by rewrite list_lookup_middle.
Qed.

Lemma getitem_nonneg l (n : nat) : getitem l (Z.of_nat n) = l !! n.
Proof.
  unfold getitem, py_index.
  rewrite (bool_decide_eq_false_2 (Z.of_nat n < 0)) by lia.
  case_bool_decide as Hn; cbn.
  - by rewrite Nat2Z.id.
  - symmetry. apply lookup_ge_None. lia.
Qed.

Lemma mutate_item_last l x f :
  mutate_item (l ++ [x]) (-1) f = Some (l ++ [f x]).
Proof.
  unfold mutate_item. rewrite py_index_last. cbn.
  rewrite list_lookup_middle by done. cbn.
  by rewrite (insert_app_r_alt l [x]), Nat.sub_diag.
Qed.

Lemma mutate_item_below l x y f :
  mutate_item (l ++ [x; y]) (-2) f = Some (l ++ [f x; y]).
Proof.
  unfold mutate_item, py_index. rewrite length_app. cbn [length].
  rewrite (bool_decide_eq_true_2 (-2 < 0)) by lia.
  rewrite bool_decide_eq_true_2 by lia.
  replace (Z.to_nat _) with (length l) by lia. cbn.
  rewrite list_lookup_middle by done. cbn.
  by rewrite (insert_app_r_alt l [x; y]), Nat.sub_diag.
Qed.

Lemma mutate_item_nil (i : Z) f : mutate_item (@nil A) i f = None.
Proof. unfold mutate_item. by rewrite py_index_nil. Qed.

Lemma pop_snoc l x : pop (l ++ [x]) = Some (x, l).
Proof.
  unfold pop. rewrite last_snoc. cbn. rewrite length_app. cbn [length].
  replace (length l + 1 - 1)%nat with (length l) by lia.
  by rewrite take_app_length.
Qed.

Lemma snoc2_assoc l x y : l ++ [x; y] = (l ++ [x]) ++ [y].
Proof. by rewrite <-app_assoc. Qed.

(** A list that is not empty ends with some element. *)
Lemma snoc_inv l : l ≠ [] → ∃ l' x, l = l' ++ [x].
Proof.
  destruct l as [|x l] using rev_ind; [done|]. intros _. by exists l, x.
Qed.

(** A list of two or more elements ends with two of them. *)
Lemma snoc2_inv l : (2 ≤ length l)%nat → ∃ l' x y, l = l' ++ [x; y].
Proof.
  intros Hlen. destruct (snoc_inv l) as (l1 & y & ->).
  { intros ->. cbn in Hlen. lia. }
  rewrite length_app in Hlen. cbn in Hlen.
  destruct (snoc_inv l1) as (l2 & x & ->).
  { intros ->. cbn in Hlen. lia. }
  exists l2, x, y. by rewrite <-app_assoc.
Qed.
End py_list_facts.

(** ** The store: how each method acts on a stack that ends with [top] *)

Section store_facts.
Implicit Types (ls : list layer) (top below : layer) (key value : string).

Lemma effective_get_snoc ls top key :
  _effective_get (mkDB (ls ++ [top])) key =
  match top !! key with
  | Some DELETED => (false, None)
  | Some (Real v) => (true, Some v)
  | None => _effective_get (mkDB ls) key
  end.
Proof.
  unfold _effective_get, _iter_layers_top_down. cbn [_layers].
  by rewrite reverse_snoc.
Qed.

Lemma get_value_snoc ls top key :
  get_value (mkDB (ls ++ [top])) key =
  match top !! key with
  | Some DELETED => None
  | Some (Real v) => Some v
  | None => get_value (mkDB ls) key
  end.
Proof.
  unfold get_value. rewrite effective_get_snoc.
  by destruct (top !! key) as [[v|]|].
Qed.

Lemma get_value_nil key : get_value (mkDB []) key = None.
Proof. reflexivity. Qed.

(** Layers without [key] on top of the stack are looked through. *)
Lemma get_value_app_absent ls upper key :
  in_no_layer upper key →
  get_value (mkDB (ls ++ upper)) key = get_value (mkDB ls) key.
Proof.
  induction upper as [|u upper IH] using rev_ind; intros Hup.
  - by rewrite app_nil_r.
  - apply Forall_app in Hup as [Hup Hu%Forall_inv].
    rewrite app_assoc, get_value_snoc, Hu. auto.
Qed.

Lemma get_value_topmost_entry ls key e :
  topmost ls key e →
  get_value (mkDB ls) key = match e with Real v => Some v | DELETED => None end.
Proof.
  intros (lower & l & upper & -> & Hl & Hup).
  rewrite cons_middle, app_assoc, get_value_app_absent by done.
  rewrite get_value_snoc, Hl. by destruct e.
Qed.

Lemma set_value_snoc ls top key value :
  set_value (mkDB (ls ++ [top])) key value
  = Some (mkDB (ls ++ [<[key := Real value]> top])).
Proof. unfold set_value. cbn. by rewrite mutate_item_last. Qed.

Lemma unset_value_snoc ls top key :
  unset_value (mkDB (ls ++ [top])) key
  = Some (mkDB (ls ++ [<[key := DELETED]> top])).
Proof. unfold unset_value. cbn. by rewrite mutate_item_last. Qed.

Lemma rollback_base top :
  rollback (mkDB [top]) = Some (false, mkDB [top]).
Proof. reflexivity. Qed.

Lemma commit_base top :
  commit (mkDB [top]) = Some (false, mkDB [top]).
Proof. reflexivity. Qed.

Lemma rollback_snoc2 ls below top :
  rollback (mkDB (ls ++ [below; top])) = Some (true, mkDB (ls ++ [below])).
Proof.
  unfold rollback. cbn [_layers].
  rewrite bool_decide_eq_false_2
    by (rewrite length_app; cbn [length]; lia).
  by rewrite snoc2_assoc, pop_snoc.
Qed.

(** The loop of [commit] computes the union that prefers [top]. *)
Lemma commit_loop_union top below : commit_loop top below = top ∪ below.
Proof.
  unfold commit_loop.
  apply (map_fold_weak_ind (λ r m, r = m ∪ below)).
  - by rewrite (left_id_L ∅ (∪)).
  - intros k v m r _ ->. by rewrite insert_union_l.
Qed.

Lemma commit_snoc2 ls below top :
  commit (mkDB (ls ++ [below; top]))
  = Some (true, mkDB (ls ++ [top ∪ below])).
Proof.
  unfold commit. cbn [_layers].
  rewrite bool_decide_eq_false_2
    by (rewrite length_app; cbn [length]; lia).
  rewrite snoc2_assoc, getitem_last. cbn [mbind option_bind].
  rewrite <-snoc2_assoc, mutate_item_below. cbn [mbind option_bind].
  rewrite snoc2_assoc, pop_snoc. cbn [mbind option_bind].
  by rewrite commit_loop_union.
Qed.

(** The stack of a store that has at least one layer. *)
Lemma layers_snoc_inv (db : InMemoryDB) :
  _layers db ≠ [] → ∃ ls top, db = mkDB (ls ++ [top]).
Proof.
  destruct db as [l]. cbn. intros (ls & top & ->)%snoc_inv. by exists ls, top.
Qed.

Lemma layers_snoc2_inv (db : InMemoryDB) :
  (2 ≤ length (_layers db))%nat → ∃ ls below top, db = mkDB (ls ++ [below; top]).
Proof.
  destruct db as [l]. cbn. intros (ls & x & y & ->)%snoc2_inv. by exists ls, x, y.
Qed.

Lemma layers_single_inv (db : InMemoryDB) :
  length (_layers db) = 1%nat → ∃ top, db = mkDB [top].
Proof.
  destruct db as [[|top [|? ?]]]; cbn; try discriminate. by exists top.
Qed.
End store_facts.

(** ** Reading a key *)

(** C1.  [get_value] returns the value that the topmost layer containing
    the key holds for it when that is a real value; it returns [None] when
    that layer holds [DELETED], when no layer contains the key, and right
    after [unset_value] of the key whatever the layers below hold.  The
    handler of GET, which calls it, leaves the store as it was. *)
Theorem get_value_topmost (db : InMemoryDB) (key : string) :
  (∀ v, topmost (_layers db) key (Real v) → get_value db key = Some v) ∧
  (topmost (_layers db) key DELETED → get_value db key = None) ∧
  (in_no_layer (_layers db) key → get_value db key = None) ∧
  (_layers db ≠ [] →
     ∃ db', unset_value db key = Some db' ∧ get_value db' key = None) ∧
  (∀ w, w_db w = db →
     handle_get [key] w
     = Some (true, mkWorld db
                     (w_out w ++ [Print (default "NULL" (get_value db key))])
                     (w_calls w ++ [CallGet key]))).
Proof.
  destruct db as [ls]. cbn [_layers]. repeat split.
  - intros v Hv. by rewrite (get_value_topmost_entry ls key (Real v)).
  - intros Hd. by rewrite (get_value_topmost_entry ls key DELETED).
  - intros Hno. exact (get_value_app_absent [] ls key Hno).
  - intros (l & top & ->)%snoc_inv. eexists. split.
    + apply unset_value_snoc.
    + by rewrite get_value_snoc, lookup_insert_eq.
  - intros [db out calls] Hdb. cbn in Hdb. subst db.
    unfold handle_get. rewrite bool_decide_eq_false_2 by (by intros []).
    unfold bind, arg, query, call, print, ret.
    rewrite (getitem_nonneg [key] 0 : getitem [key] 0 = _). cbn.
    by destruct (get_value (mkDB ls) key).
Qed.

Lemma get_value_topmost_witness :
  get_value (mkDB [ {["a" := Real "1"]}; ∅ ]) "a" = Some "1" ∧
  get_value (mkDB [ {["a" := Real "1"]}; {["a" := DELETED]} ]) "a" = None ∧
  get_value (mkDB [ {["b" := Real "1"]}; ∅ ]) "a" = None ∧
  (∃ db', unset_value (mkDB [ {["a" := Real "1"]}; ∅ ]) "a" = Some db' ∧
          get_value db' "a" = None) ∧
  (∃ w, handle_get ["a"] (mkWorld (mkDB [ {["a" := Real "1"]}; ∅ ]) [] [])
        = Some (true, w) ∧ w_db w = mkDB [ {["a" := Real "1"]}; ∅ ]).
Proof.
  refine (conj _ (conj _ (conj _ (conj _ _)))).
  - apply (proj1 (get_value_topmost (mkDB [ {["a" := Real "1"]}; ∅ ]) "a")).
    exists [], {["a" := Real "1"]}, [∅].
    split; [reflexivity | split; [reflexivity | repeat constructor]].
  - apply (proj1 (proj2 (get_value_topmost
             (mkDB [ {["a" := Real "1"]}; {["a" := DELETED]} ]) "a"))).
    exists [ {["a" := Real "1"]} ], {["a" := DELETED]}, [].
    split; [reflexivity | split; [reflexivity | constructor]].
  - apply (proj1 (proj2 (proj2 (get_value_topmost
             (mkDB [ {["b" := Real "1"]}; ∅ ]) "a")))).
    repeat constructor.
  - apply (proj1 (proj2 (proj2 (proj2 (get_value_topmost
             (mkDB [ {["a" := Real "1"]}; ∅ ]) "a"))))).
    discriminate.
  - eexists. split.
    + apply (proj2 (proj2 (proj2 (proj2 (get_value_topmost
               (mkDB [ {["a" := Real "1"]}; ∅ ]) "a"))))).
      reflexivity.
    + reflexivity.
Defined.

(** ** Transactions *)

(** C2.  With two layers or more, [commit] returns [True]; the top layer is
    removed and the layer below receives every pair of the top layer,
    [DELETED] entries included, keeping its own entry for every key the top
    layer does not have; the layers further down are as they were. *)
Theorem commit_merges_top (db : InMemoryDB) :
  (2 ≤ length (_layers db))%nat →
  ∃ lower below top below',
    _layers db = lower ++ [below; top] ∧
    commit db = Some (true, mkDB (lower ++ [below'])) ∧
    (∀ k e, top !! k = Some e → below' !! k = Some e) ∧
    (∀ k, top !! k = None → below' !! k = below !! k).
Proof.
  intros (lower & below & top & ->)%layers_snoc2_inv.
  exists lower, below, top, (top ∪ below). split; [done|]. split.
  - apply commit_snoc2.
  - split.
    + intros k e Hk. by apply lookup_union_Some_l.
    + intros k Hk. by apply lookup_union_r.
Qed.

Lemma commit_merges_top_witness :
  ∃ lower below top below',
    [ {["a" := Real "1"; "b" := Real "2"]}; {["a" := DELETED]} ]
      = lower ++ [below; top] ∧
    commit (mkDB [ {["a" := Real "1"; "b" := Real "2"]}; {["a" := DELETED]} ])
      = Some (true, mkDB (lower ++ [below'])) ∧
    (∀ k e, top !! k = Some e → below' !! k = Some e) ∧
    (∀ k, top !! k = None → below' !! k = below !! k).
Proof.
  apply (commit_merges_top
           (mkDB [ {["a" := Real "1"; "b" := Real "2"]}; {["a" := DELETED]} ])).
  cbn. lia.
Defined.

(** C3.  With the base layer alone, [rollback] and [commit] both return
    [False]; the stack of layers, and with it the result of [get_value] on
    every key, is what it was before the call. *)
Theorem no_transaction_at_base (db : InMemoryDB) :
  length (_layers db) = 1%nat →
  ∃ db1 db2,
    rollback db = Some (false, db1) ∧ commit db = Some (false, db2) ∧
    _layers db1 = _layers db ∧ _layers db2 = _layers db ∧
    ∀ key, get_value db1 key = get_value db key ∧
           get_value db2 key = get_value db key.
Proof.
  intros (top & ->)%layers_single_inv. exists (mkDB [top]), (mkDB [top]).
  by rewrite rollback_base, commit_base.
Qed.

Lemma no_transaction_at_base_witness :
  ∃ db1 db2,
    rollback (mkDB [ {["a" := Real "1"]} ]) = Some (false, db1) ∧
    commit (mkDB [ {["a" := Real "1"]} ]) = Some (false, db2) ∧
    _layers db1 = [ {["a" := Real "1"]} ] ∧
    _layers db2 = [ {["a" := Real "1"]} ] ∧
    ∀ key, get_value db1 key = get_value (mkDB [ {["a" := Real "1"]} ]) key ∧
           get_value db2 key = get_value (mkDB [ {["a" := Real "1"]} ]) key.
Proof.
  apply (no_transaction_at_base (mkDB [ {["a" := Real "1"]} ])). reflexivity.
Defined.

(** C4.  [begin] followed at once by [rollback] gives back, for every key,
    the result [get_value] had before [begin]. *)
Theorem begin_rollback_restores (db : InMemoryDB) :
  ∃ b db',
    rollback (begin db) = Some (b, db') ∧
    ∀ key, get_value db' key = get_value db key.
Proof.
  destruct db as [ls]. unfold begin. cbn [_layers].
  destruct ls as [|top ls _] using rev_ind.
  - exists false, (mkDB [∅]). split; [reflexivity|].
    intros key. etrans; [apply (get_value_snoc [] ∅ key)|].
    by rewrite lookup_empty.
  - exists true, (mkDB (ls ++ [top])). split; [|done].
    rewrite <-snoc2_assoc. apply rollback_snoc2.
Qed.

(** On a store that has a layer the pair of calls even gives back the very
    stack of layers. *)
Lemma begin_rollback_id (db : InMemoryDB) :
  _layers db ≠ [] → rollback (begin db) = Some (true, db).
Proof.
  intros (ls & top & ->)%layers_snoc_inv. unfold begin. cbn [_layers].
  rewrite <-snoc2_assoc. apply rollback_snoc2.
Qed.

(** C5.  On a store that has a layer, [begin], then [set_value key value],
    then [commit] all succeed, and so does [set_value key value] alone; the
    two resulting stores agree on [get_value] for every key. *)
Theorem begin_set_commit_is_set (db : InMemoryDB) (key value : string) :
  _layers db ≠ [] →
  ∃ db1 db2 db3,
    set_value (begin db) key value = Some db1 ∧
    commit db1 = Some (true, db2) ∧
    set_value db key value = Some db3 ∧
    ∀ key', get_value db2 key' = get_value db3 key'.
Proof.
  intros (ls & top & ->)%layers_snoc_inv.
  exists (mkDB (ls ++ [top; <[key := Real value]> ∅])),
         (mkDB (ls ++ [<[key := Real value]> ∅ ∪ top])),
         (mkDB (ls ++ [<[key := Real value]> top])).
  split; [|split; [|split]].
  - unfold begin. cbn [_layers]. rewrite set_value_snoc.
    by rewrite <-snoc2_assoc.
  - apply commit_snoc2.
  - apply set_value_snoc.
  - intros key'.
    by rewrite <-insert_union_l, (left_id_L ∅ (∪)).
Qed.

Lemma begin_set_commit_is_set_witness :
  ∃ db1 db2 db3,
    set_value (begin (mkDB [ {["a" := Real "1"]} ])) "a" "2" = Some db1 ∧
    commit db1 = Some (true, db2) ∧
    set_value (mkDB [ {["a" := Real "1"]} ]) "a" "2" = Some db3 ∧
    ∀ key', get_value db2 key' = get_value db3 key'.
Proof.
  apply (begin_set_commit_is_set (mkDB [ {["a" := Real "1"]} ]) "a" "2").
  discriminate.
Defined.

(** ** The order on strings and [sort] *)

Lemma string_compare_lt_trans (a b c : string) :
  String.compare a b = Lt → String.compare b c = Lt → String.compare a c = Lt.
Proof.
  revert b c. induction a as [|x a IH]; intros [|y b] [|z c]; cbn; try done.
  destruct (Ascii.compare x y) eqn:Hxy, (Ascii.compare y z) eqn:Hyz;
    try done; intros Hab Hbc.
  - apply Ascii.compare_eq_iff in Hxy as ->.
    rewrite Hyz. eauto.
  - apply Ascii.compare_eq_iff in Hxy as ->. by rewrite Hyz.
  - apply Ascii.compare_eq_iff in Hyz as <-. by rewrite Hxy.
  - unfold Ascii.compare in *.
    apply N.compare_lt_iff in Hxy, Hyz.
    by rewrite (proj2 (N.compare_lt_iff _ _) (N.lt_trans _ _ _ Hxy Hyz)).
Qed.

Global Instance str_lt_trans : Transitive str_lt.
Proof.
  intros a b c. unfold str_lt, String.ltb. intros Hab Hbc.
  destruct (String.compare a b) eqn:Eab; try done.
  destruct (String.compare b c) eqn:Ebc; try done.
  by rewrite (string_compare_lt_trans a b c).
Qed.

Global Instance str_le_total : Total str_le.
Proof. intros a b. apply String.leb_total. Qed.

Lemma str_le_neq_lt (a b : string) : str_le a b → a ≠ b → str_lt a b.
Proof.
  unfold str_le, str_lt, String.leb, String.ltb. intros Hle Hne.
  destruct (String.compare a b) eqn:E; try done.
  by apply String.compare_eq_iff in E.
Qed.

(** A sorted list without repetition is strictly ascending. *)
Lemma Sorted_le_NoDup_lt (l : list string) :
  Sorted str_le l → NoDup l → Sorted str_lt l.
Proof.
  induction 1 as [|x l Hs IH Hhd]; intros Hnd; [constructor|].
  apply NoDup_cons in Hnd as [Hx Hnd]. constructor; [auto|].
  destruct Hhd as [|y l Hxy]; constructor.
  apply str_le_neq_lt; [done|]. intros ->. apply Hx. by left.
Qed.

Lemma sort_Permutation (l : list string) : sort l ≡ₚ l.
Proof. apply merge_sort_Permutation. Qed.

Lemma sort_strictly_ascending (l : list string) :
  NoDup l → StronglySorted str_lt (sort l).
Proof.
  intros Hnd. apply Sorted_StronglySorted; [apply _|].
  apply Sorted_le_NoDup_lt.
  - apply (Sorted_merge_sort str_le).
  - by rewrite sort_Permutation.
Qed.

(** ** Lookups by value *)

Section by_value.
Variables (db : InMemoryDB) (value : string).

(** The test of both loops, on the result of [get_value]. *)
Lemma effective_test {T} (key : string) (a b : T) :
  (let '(exists_, eff) := _effective_get db key in
   if exists_ && bool_decide (eff = Some value) then a else b)
  = if bool_decide (get_value db key = Some value) then a else b.
Proof.
  unfold get_value. destruct (_effective_get db key) as [[] eff]; cbn.
  - done.
  - by rewrite bool_decide_eq_false_2.
Qed.

Lemma count_loop_filter (keys : list string) (n : nat) :
  foldl (λ count key,
           let '(exists_, eff) := _effective_get db key in
           if exists_ && bool_decide (eff = Some value)
           then (count + 1)%nat else count) n keys
  = (n + length (filter (λ key, get_value db key = Some value) keys))%nat.
Proof.
  revert n. induction keys as [|key keys IH]; intros n; cbn [foldl].
  - cbn. lia.
  - rewrite IH, effective_test, filter_cons.
    case_bool_decide; case_decide; try done; cbn [length]; lia.
Qed.

Lemma find_loop_filter (keys found : list string) :
  foldl (λ found key,
           let '(exists_, eff) := _effective_get db key in
           if exists_ && bool_decide (eff = Some value)
           then found ++ [key] else found) found keys
  = found ++ filter (λ key, get_value db key = Some value) keys.
Proof.
  revert found. induction keys as [|key keys IH]; intros found; cbn [foldl].
  - by rewrite app_nil_r.
  - rewrite IH, effective_test, filter_cons.
    case_bool_decide; case_decide; try done.
    by rewrite <-app_assoc.
Qed.

Lemma count_value_filter :
  count_value db value
  = length (filter (λ key, get_value db key = Some value)
                   (elements (_all_keys db))).
Proof. unfold count_value. by rewrite count_loop_filter. Qed.

Lemma find_keys_by_value_filter :
  find_keys_by_value db value
  = sort (filter (λ key, get_value db key = Some value)
                 (elements (_all_keys db))).
Proof. unfold find_keys_by_value. by rewrite find_loop_filter. Qed.
End by_value.

Lemma all_keys_loop (ls : list layer) (acc : gset string) (key : string) :
  key ∈ foldl (λ keys l, keys ∪ dom l) acc ls
  ↔ key ∈ acc ∨ ∃ l, l ∈ ls ∧ is_Some (l !! key).
Proof.
  revert acc. induction ls as [|l ls IH]; intros acc; cbn [foldl].
  - split; [by left|]. intros [?|(l & Hl & _)]; [done|]. by apply elem_of_nil in Hl.
  - rewrite IH, elem_of_union, elem_of_dom. split.
    + intros [[?|?]|(l' & ? & ?)]; [by left|right..].
      * exists l. split; [left|done].
      * exists l'. split; [by right|done].
    + intros [?|(l' & [->|?]%elem_of_cons & ?)].
      * by left; left.
      * by left; right.
      * right. by exists l'.
Qed.

Lemma elem_of_all_keys (db : InMemoryDB) (key : string) :
  key ∈ _all_keys db ↔ ∃ l, l ∈ _layers db ∧ is_Some (l !! key).
Proof.
  unfold _all_keys. rewrite all_keys_loop. split; [|by right].
  intros [Hin|?]; [|done]. by apply not_elem_of_empty in Hin.
Qed.

(** A key that reads as a value is a key of some layer. *)
Lemma get_value_Some_all_keys (db : InMemoryDB) (key v : string) :
  get_value db key = Some v → key ∈ _all_keys db.
Proof.
  rewrite elem_of_all_keys. destruct db as [ls]. cbn [_layers].
  induction ls as [|top ls IH] using rev_ind.
  - by rewrite get_value_nil.
  - rewrite get_value_snoc. destruct (top !! key) as [e|] eqn:Htop.
    + intros _. exists top. split; [set_solver|by rewrite Htop].
    + intros (l & ? & ?)%IH. exists l. split; [set_solver|done].
Qed.

(** C6.  [count_value] is the length of the list [find_keys_by_value]
    returns. *)
Theorem count_value_length_find (db : InMemoryDB) (value : string) :
  count_value db value = length (find_keys_by_value db value).
Proof.
  rewrite count_value_filter, find_keys_by_value_filter.
  by rewrite sort_Permutation.
Qed.

(** C7.  [find_keys_by_value] returns exactly the keys that [get_value]
    reads as the value, in whichever layer they are stored, in strictly
    ascending order and without repetition. *)
Theorem find_keys_by_value_exact (db : InMemoryDB) (value : string) :
  (∀ key, key ∈ find_keys_by_value db value ↔ get_value db key = Some value) ∧
  StronglySorted str_lt (find_keys_by_value db value) ∧
  NoDup (find_keys_by_value db value).
Proof.
  rewrite find_keys_by_value_filter.
  assert (NoDup (filter (λ key, get_value db key = Some value)
                        (elements (_all_keys db)))) as Hnd.
  { apply NoDup_filter, NoDup_elements. }
  split; [|split].
  - intros key. rewrite sort_Permutation, list_elem_of_filter, elem_of_elements.
    split; [by intros [? _]|]. intros Hk. split; [done|].
    by apply get_value_Some_all_keys with value.
  - by apply sort_strictly_ascending.
  - by rewrite sort_Permutation.
Qed.

Lemma find_keys_by_value_exact_witness :
  "b" ∈ find_keys_by_value
          (mkDB [ {["b" := Real "1"; "c" := Real "1"]}; {["c" := DELETED]}; ∅ ]) "1".
Proof.
  apply (proj1 (find_keys_by_value_exact
           (mkDB [ {["b" := Real "1"; "c" := Real "1"]}; {["c" := DELETED]}; ∅ ])
           "1")).
  reflexivity.
Defined.

(** ** The number of layers *)

Lemma step_depth (c : core_call) (db : InMemoryDB) :
  (1 ≤ length (_layers db))%nat →
  ∃ db', step c db = Some db' ∧
         length (_layers db') = depth_after c (length (_layers db)).
Proof.
  intros Hlen.
  destruct (decide (length (_layers db) = 1%nat)) as [Hone|Hmore].
  - destruct (layers_single_inv db Hone) as [top ->].
    destruct c; cbn [step depth_after];
      rewrite ?(set_value_snoc [] top), ?(unset_value_snoc [] top),
        ?rollback_base, ?commit_base; eauto.
  - destruct (layers_snoc2_inv db) as (ls & below & top & ->); [lia|].
    destruct c; cbn [step depth_after _layers];
      rewrite ?snoc2_assoc, ?set_value_snoc, ?unset_value_snoc;
      rewrite <-?snoc2_assoc, ?rollback_snoc2, ?commit_snoc2;
      (eexists; split; [reflexivity|]);
      cbn [_layers begin fmap option_fmap option_map snd];
      rewrite ?length_app; cbn [length];
      rewrite ?bool_decide_eq_false_2 by lia; lia.
Qed.

Lemma steps_nonempty (cs : list core_call) (db : InMemoryDB) :
  (1 ≤ length (_layers db))%nat →
  ∃ db', steps cs db = Some db' ∧ (1 ≤ length (_layers db'))%nat.
Proof.
  revert db. induction cs as [|c cs IH]; intros db Hlen; cbn [steps].
  - by exists db.
  - destruct (step_depth c db Hlen) as (db1 & -> & Hd). cbn.
    apply IH. rewrite Hd.
    destruct c; cbn [depth_after]; try case_bool_decide; lia.
Qed.

Lemma steps_app (cs1 cs2 : list core_call) (db : InMemoryDB) :
  steps (cs1 ++ cs2) db = db' ← steps cs1 db; steps cs2 db'.
Proof.
  revert db. induction cs1 as [|c cs1 IH]; intros db; cbn; [done|].
  destruct (step c db); cbn; auto.
Qed.

(** Any content of the top layer can be written by calls, starting from an
    empty top layer. *)
Lemma fill_top_layer (ls : list layer) (m : layer) :
  ∃ cs, steps cs (mkDB (ls ++ [∅])) = Some (mkDB (ls ++ [m])).
Proof.
  induction m as [|key e m Hfresh [cs IH]] using map_ind.
  - by exists [].
  - exists (cs ++ [match e with Real v => CallSet key v | DELETED => CallUnset key end]).
    rewrite steps_app, IH. cbn.
    destruct e; cbn; by rewrite ?set_value_snoc, ?unset_value_snoc.
Qed.

(** The stores that calls can produce from a new store are exactly those
    with at least one layer. *)
Lemma nonempty_stack_reachable (db : InMemoryDB) :
  _layers db ≠ [] ↔ ∃ cs, steps cs __init__ = Some db.
Proof.
  split.
  - intros (ls & top & ->)%layers_snoc_inv. revert top.
    induction ls as [|below ls IH] using rev_ind; intros top.
    + apply (fill_top_layer [] top).
    + destruct (IH below) as [cs1 H1].
      destruct (fill_top_layer (ls ++ [below]) top) as [cs2 H2].
      exists (cs1 ++ CallBegin :: cs2).
      rewrite steps_app, H1. cbn. apply H2.
  - intros [cs Hcs].
    destruct (steps_nonempty cs __init__) as (db' & Hdb' & Hlen); [cbn; lia|].
    rewrite Hcs in Hdb'. injection Hdb' as <-.
    intros E. rewrite E in Hlen. cbn in Hlen. lia.
Qed.

(** C8.  A new store has exactly one layer.  [begin] adds one empty layer
    on top.  [rollback] and [commit] return [False] and change nothing when
    there is one layer, and return [True] and leave one layer less when
    there are more.  Every call succeeds on a store that has a layer and
    leaves the number of layers [depth_after] gives, which for the other
    methods is the number found.  Hence after any sequence of calls on a
    new store there is at least one layer. *)
Theorem layer_stack_never_empty :
  length (_layers __init__) = 1%nat ∧
  (∀ db, _layers (begin db) = _layers db ++ [∅]) ∧
  (∀ db, length (_layers db) = 1%nat →
     rollback db = Some (false, db) ∧ commit db = Some (false, db)) ∧
  (∀ db, (2 ≤ length (_layers db))%nat →
     ∃ db1 db2,
       rollback db = Some (true, db1) ∧ commit db = Some (true, db2) ∧
       length (_layers db) = S (length (_layers db1)) ∧
       length (_layers db) = S (length (_layers db2))) ∧
  (∀ c db, (1 ≤ length (_layers db))%nat →
     ∃ db', step c db = Some db' ∧
            length (_layers db') = depth_after c (length (_layers db))) ∧
  (∀ cs, ∃ db, steps cs __init__ = Some db ∧ (1 ≤ length (_layers db))%nat).
Proof.
  split; [reflexivity|]. split; [reflexivity|].
  split; [|split; [|split]].
  - intros db (top & ->)%layers_single_inv.
    by rewrite rollback_base, commit_base.
  - intros db (ls & below & top & ->)%layers_snoc2_inv.
    exists (mkDB (ls ++ [below])), (mkDB (ls ++ [top ∪ below])).
    rewrite rollback_snoc2, commit_snoc2. cbn [_layers].
    rewrite !length_app. cbn [length]. repeat split; lia.
  - apply step_depth.
  - intros cs. apply steps_nonempty. cbn. lia.
Qed.

Lemma layer_stack_never_empty_witness :
  (rollback __init__ = Some (false, __init__) ∧
   commit __init__ = Some (false, __init__)) ∧
  (∃ db1 db2,
     rollback (begin __init__) = Some (true, db1) ∧
     commit (begin __init__) = Some (true, db2) ∧
     length (_layers (begin __init__)) = S (length (_layers db1)) ∧
     length (_layers (begin __init__)) = S (length (_layers db2))) ∧
  (∃ db', step (CallSet "a" "1") __init__ = Some db' ∧
          length (_layers db') = 1%nat).
Proof.
  destruct layer_stack_never_empty as (_ & _ & Hbase & Hopen & Hstep & _).
  split; [|split].
  - apply (Hbase __init__). reflexivity.
  - apply (Hopen (begin __init__)). cbn. lia.
  - apply (Hstep (CallSet "a" "1") __init__). cbn. lia.
Defined.

(** ** The interpreter *)

Section handlers_arity.
Variables (args : list string) (w : world).

Lemma handle_set_arity : length args ≠ 2%nat → handle_set args w = Some (false, w).
Proof. intros H. unfold handle_set. by rewrite bool_decide_eq_true_2. Qed.

Lemma handle_get_arity : length args ≠ 1%nat → handle_get args w = Some (false, w).
Proof. intros H. unfold handle_get. by rewrite bool_decide_eq_true_2. Qed.

Lemma handle_unset_arity : length args ≠ 1%nat → handle_unset args w = Some (false, w).
Proof. intros H. unfold handle_unset. by rewrite bool_decide_eq_true_2. Qed.

Lemma handle_counts_arity : length args ≠ 1%nat → handle_counts args w = Some (false, w).
Proof. intros H. unfold handle_counts. by rewrite bool_decide_eq_true_2. Qed.

Lemma handle_find_arity : length args ≠ 1%nat → handle_find args w = Some (false, w).
Proof. intros H. unfold handle_find. by rewrite bool_decide_eq_true_2. Qed.

Lemma handle_begin_arity : length args ≠ 0%nat → handle_begin args w = Some (false, w).
Proof. intros H. unfold handle_begin. by rewrite bool_decide_eq_true_2. Qed.

Lemma handle_rollback_arity : length args ≠ 0%nat → handle_rollback args w = Some (false, w).
Proof. intros H. unfold handle_rollback. by rewrite bool_decide_eq_true_2. Qed.

Lemma handle_commit_arity : length args ≠ 0%nat → handle_commit args w = Some (false, w).
Proof. intros H. unfold handle_commit. by rewrite bool_decide_eq_true_2. Qed.
End handlers_arity.

(** A command of the table other than END has a handler, which refuses a
    list of arguments of another length than the table says. *)
Lemma COMMANDS_wrong_arity (cmd : string) (n : nat) (args : list string) (w : world) :
  (cmd, n) ∈ spec_command_table → cmd ≠ "END" → length args ≠ n →
  ∃ handler : list string → M bool,
    COMMANDS !! cmd = Some handler ∧ handler args w = Some (false, w).
Proof.
  unfold spec_command_table. rewrite !elem_of_cons, elem_of_nil.
  intros Hin Hend Hlen.
  repeat (destruct Hin as [[= -> ->]|Hin]); [..|done].
  - exists handle_set. split; [reflexivity|by apply handle_set_arity].
  - exists handle_get. split; [reflexivity|by apply handle_get_arity].
  - exists handle_unset. split; [reflexivity|by apply handle_unset_arity].
  - exists handle_counts. split; [reflexivity|by apply handle_counts_arity].
  - exists handle_find. split; [reflexivity|by apply handle_find_arity].
  - exists handle_begin. split; [reflexivity|by apply handle_begin_arity].
  - exists handle_rollback. split; [reflexivity|by apply handle_rollback_arity].
  - exists handle_commit. split; [reflexivity|by apply handle_commit_arity].
  - done.
Qed.

(** A name outside the table is not END and has no handler. *)
Lemma COMMANDS_unknown (cmd : string) :
  cmd ∉ spec_command_table.*1 → cmd ≠ "END" ∧ COMMANDS !! cmd = None.
Proof.
  intros Hnot. split.
  - intros ->. apply Hnot. cbn. rewrite !elem_of_cons. intuition congruence.
  - apply not_elem_of_list_to_map_1. intros Hin. apply Hnot.
    cbn in Hin |- *. rewrite !elem_of_cons, elem_of_nil in Hin.
    rewrite !elem_of_cons. tauto.
Qed.

(** What [loop_body] does with a line whose tokens are known. *)
Lemma loop_body_tokens (raw name : string) (args : list string) (w : world) :
  split (strip raw) = name :: args →
  loop_body raw w =
  if bool_decide (upper name = "END") then Some (Some 0, w)
  else match COMMANDS !! upper name with
       | None => (let* _ := print "ERROR" in ret None) w
       | Some handler =>
           (let* ok := handler args in
            if negb ok then let* _ := print "ERROR" in ret None
            else ret None) w
       end.
Proof.
  intros Htok. unfold loop_body.
  rewrite bool_decide_eq_false_2 by (intros E; by rewrite E in Htok).
  rewrite Htok. case_bool_decide; [done|].
  by destruct (COMMANDS !! upper name).
Qed.

Lemma isblank_lstrip (s : string) : isblank s = true → lstrip s = "".
Proof.
  induction s as [|c s IH]; cbn; [done|].
  intros [-> Hs]%andb_prop. auto.
Qed.

Lemma isblank_strip (s : string) : isblank s = true → strip s = "".
Proof. intros Hs. unfold strip. by rewrite isblank_lstrip. Qed.

(** C9.  The code at the line END x.  Its first token names a command of
    the table, which gives END no argument, so the claim asks for ERROR;
    the code answers nothing and ends the session with code 0, because
    [main] compares the name with END before any count of the arguments.
    The other commands without argument are answered by ERROR when given
    one. *)
Lemma end_with_argument_not_rejected :
  wrong_arity "END x" ∧
  ¬ rejected "END x" (mkWorld __init__ [] []) ∧
  loop_body "END x" (mkWorld __init__ [] [])
  = Some (Some 0, mkWorld __init__ [] []) ∧
  rejected "BEGIN x" (mkWorld __init__ [] []) ∧
  rejected "ROLLBACK x" (mkWorld __init__ [] []) ∧
  rejected "COMMIT x" (mkWorld __init__ [] []).
Proof.
  split; [|split; [|split; [|split; [|split]]]].
  - exists "END", ["x"], 0%nat. split; [reflexivity|]. split; [|done].
    unfold spec_command_table. cbn. rewrite !elem_of_cons. intuition congruence.
  - unfold rejected. by rewrite (loop_body_tokens "END x" "END" ["x"]).
  - by rewrite (loop_body_tokens "END x" "END" ["x"]).
  - reflexivity.
  - reflexivity.
  - reflexivity.
Qed.

(** X20.  A line whose first token names, whatever its case, a command of
    the table other than END with another number of arguments than the
    table gives, or names no command of the table, is answered by ERROR,
    with no call on the store, which stays as it was; the loop goes on. *)
Theorem malformed_command_rejected (raw : string) (w : world) :
  wrong_arity raw ∧ ¬ names_end raw ∨ unknown_command raw → rejected raw w.
Proof.
  unfold rejected.
  intros [[(name & args & n & Htok & Hin & Hlen) Hend]|(name & args & Htok & Hunk)];
    rewrite (loop_body_tokens raw name args w Htok).
  - assert (upper name ≠ "END") as Hne.
    { intros E. apply Hend. by exists name, args. }
    rewrite bool_decide_eq_false_2 by done.
    destruct (COMMANDS_wrong_arity (upper name) n args w Hin Hne Hlen)
      as (handler & -> & Hrefused).
    unfold bind. by rewrite Hrefused.
  - destruct (COMMANDS_unknown _ Hunk) as [Hne ->].
    by rewrite bool_decide_eq_false_2.
Qed.

Lemma malformed_command_rejected_witness :
  rejected "get" (mkWorld __init__ [] []) ∧
  rejected "FOO x" (mkWorld __init__ [] []) ∧
  rejected "BEGIN x" (mkWorld __init__ [] []).
Proof.
  split; [|split].
  - apply (malformed_command_rejected "get" (mkWorld __init__ [] [])).
    left. split.
    + exists "get", [], 1%nat. split; [reflexivity|]. split; [|done].
      unfold spec_command_table. cbn. rewrite !elem_of_cons. intuition congruence.
    + intros (name & args & [= <- <-] & Hend). discriminate Hend.
  - apply (malformed_command_rejected "FOO x" (mkWorld __init__ [] [])).
    right. exists "FOO", ["x"]. split; [reflexivity|].
    cbn. rewrite !not_elem_of_cons. repeat split; try discriminate.
    apply not_elem_of_nil.
  - apply (malformed_command_rejected "BEGIN x" (mkWorld __init__ [] [])).
    left. split.
    + exists "BEGIN", ["x"], 0%nat. split; [reflexivity|]. split; [|done].
      unfold spec_command_table. cbn. rewrite !elem_of_cons. intuition congruence.
    + intros (name & args & [= <- <-] & Hend). discriminate Hend.
Defined.

(** C10.  A line that is empty or made of whitespace only makes the body of
    the loop print nothing and call nothing on the store, which stays as it
    was; [main] goes on to the next line, the only output in between being
    the prompt [input] had written before the line was read. *)
Theorem blank_line_skipped (raw : string) (w : world) :
  isblank raw = true →
  loop_body raw w = Some (None, w) ∧
  ∀ rest,
    main_loop (Line raw :: rest) w
    = main_loop rest (mkWorld (w_db w) (w_out w ++ [Prompt "> "]) (w_calls w)).
Proof.
  intros Hblank.
  assert (∀ w', loop_body raw w' = Some (None, w')) as Hbody.
  { intros w'. unfold loop_body. by rewrite isblank_strip. }
  split; [apply Hbody|]. intros rest.
  cbn [main_loop]. unfold bind at 1. cbn [prompt].
  unfold bind at 1. rewrite Hbody.
  by destruct rest.
Qed.

Lemma blank_line_skipped_witness :
  loop_body "   " (mkWorld __init__ [] []) = Some (None, mkWorld __init__ [] []) ∧
  ∀ rest,
    main_loop (Line "   " :: rest) (mkWorld __init__ [] [])
    = main_loop rest (mkWorld __init__ [Prompt "> "] []).
Proof.
  apply (blank_line_skipped "   " (mkWorld __init__ [] [])). reflexivity.
Defined.

(** ** The interpreter raises no exception *)

(** A handler given the number of arguments it expects makes exactly one
    call on the store. *)
Section handlers_run.
Variable w : world.
Hypothesis Hw : _layers (w_db w) ≠ [].

Lemma arg_0 (a : string) (l : list string) : arg (a :: l) 0 w = Some (a, w).
Proof.
  unfold arg. by rewrite (getitem_nonneg (a :: l) 0 : getitem _ 0 = _).
Qed.

Lemma arg_1 (a b : string) (l : list string) : arg (a :: b :: l) 1 w = Some (b, w).
Proof.
  unfold arg. by rewrite (getitem_nonneg (a :: b :: l) 1 : getitem _ 1 = _).
Qed.

Lemma handle_set_run (key value : string) :
  performs (CallSet key value) (handle_set [key; value]) w.
Proof.
  destruct (step_depth (CallSet key value) (w_db w)) as (db' & Hstep & _).
  { destruct (_layers (w_db w)); [done|cbn; lia]. }
  exists db', []. split; [|done]. cbn in Hstep.
  unfold handle_set. rewrite bool_decide_eq_false_2 by (by intros []).
  unfold bind. rewrite arg_0, arg_1. unfold call. rewrite Hstep. cbn.
  by rewrite app_nil_r.
Qed.

Lemma handle_unset_run (key : string) :
  performs (CallUnset key) (handle_unset [key]) w.
Proof.
  destruct (step_depth (CallUnset key) (w_db w)) as (db' & Hstep & _).
  { destruct (_layers (w_db w)); [done|cbn; lia]. }
  exists db', []. split; [|done]. cbn in Hstep.
  unfold handle_unset. rewrite bool_decide_eq_false_2 by (by intros []).
  unfold bind. rewrite arg_0. unfold call. rewrite Hstep. cbn.
  by rewrite app_nil_r.
Qed.

Lemma handle_get_run (key : string) :
  performs (CallGet key) (handle_get [key]) w.
Proof.
  exists (w_db w), [Print (default "NULL" (get_value (w_db w) key))].
  split; [|done].
  unfold handle_get. rewrite bool_decide_eq_false_2 by (by intros []).
  unfold bind. rewrite arg_0. cbn.
  by destruct (get_value (w_db w) key).
Qed.

Lemma handle_counts_run (value : string) :
  performs (CallCount value) (handle_counts [value]) w.
Proof.
  exists (w_db w), [Print (pretty (count_value (w_db w) value))].
  split; [|done].
  unfold handle_counts. rewrite bool_decide_eq_false_2 by (by intros []).
  unfold bind. by rewrite arg_0.
Qed.

Lemma handle_find_run (value : string) :
  performs (CallFind value) (handle_find [value]) w.
Proof.
  exists (w_db w), [Print (join " " (find_keys_by_value (w_db w) value))].
  split; [|done].
  unfold handle_find. rewrite bool_decide_eq_false_2 by (by intros []).
  unfold bind. by rewrite arg_0.
Qed.

Lemma handle_begin_run : performs CallBegin (handle_begin []) w.
Proof.
  exists (begin (w_db w)), []. split; [|done].
  unfold handle_begin. rewrite bool_decide_eq_false_2 by (by intros []).
  unfold bind, call. cbn. by rewrite app_nil_r.
Qed.

Lemma handle_rollback_run : performs CallRollback (handle_rollback []) w.
Proof.
  destruct (step_depth CallRollback (w_db w)) as (db' & Hstep & _).
  { destruct (_layers (w_db w)); [done|cbn; lia]. }
  cbn in Hstep. destruct (rollback (w_db w)) as [[ok db1]|] eqn:Hrb; [|done].
  injection Hstep as <-.
  exists db1, (if ok then [] else [Print "NO TRANSACTION"]). split.
  - unfold handle_rollback. rewrite bool_decide_eq_false_2 by (by intros []).
    unfold bind, call. rewrite Hrb. destruct ok; cbn; [|done].
    by rewrite app_nil_r.
  - cbn. by rewrite Hrb.
Qed.

Lemma handle_commit_run : performs CallCommit (handle_commit []) w.
Proof.
  destruct (step_depth CallCommit (w_db w)) as (db' & Hstep & _).
  { destruct (_layers (w_db w)); [done|cbn; lia]. }
  cbn in Hstep. destruct (commit (w_db w)) as [[ok db1]|] eqn:Hc; [|done].
  injection Hstep as <-.
  exists db1, (if ok then [] else [Print "NO TRANSACTION"]). split.
  - unfold handle_commit. rewrite bool_decide_eq_false_2 by (by intros []).
    unfold bind, call. rewrite Hc. destruct ok; cbn; [|done].
    by rewrite app_nil_r.
  - cbn. by rewrite Hc.
Qed.

(** Whatever its arguments, a handler either refuses them, touching
    nothing, or makes its one call. *)
Lemma handler_refuses_or_performs (cmd : string) (handler : list string → M bool)
    (args : list string) :
  COMMANDS !! cmd = Some handler →
  handler args w = Some (false, w) ∨ ∃ c, performs c (handler args) w.
Proof.
  intros Hin%elem_of_list_to_map_2.
  rewrite !elem_of_cons, elem_of_nil in Hin.
  repeat (destruct Hin as [[= -> ->]|Hin]); [..|done].
  - destruct args as [|a0 [|a1 [|a2 args]]];
      [left; by apply handle_set_arity..| |left; by apply handle_set_arity].
    right. eexists. apply handle_set_run.
  - destruct args as [|a0 [|a1 args]];
      [left; by apply handle_get_arity| |left; by apply handle_get_arity].
    right. eexists. apply handle_get_run.
  - destruct args as [|a0 [|a1 args]];
      [left; by apply handle_unset_arity| |left; by apply handle_unset_arity].
    right. eexists. apply handle_unset_run.
  - destruct args as [|a0 [|a1 args]];
      [left; by apply handle_counts_arity| |left; by apply handle_counts_arity].
    right. eexists. apply handle_counts_run.
  - destruct args as [|a0 [|a1 args]];
      [left; by apply handle_find_arity| |left; by apply handle_find_arity].
    right. eexists. apply handle_find_run.
  - destruct args as [|a0 args]; [|left; by apply handle_begin_arity].
    right. eexists. apply handle_begin_run.
  - destruct args as [|a0 args]; [|left; by apply handle_rollback_arity].
    right. eexists. apply handle_rollback_run.
  - destruct args as [|a0 args]; [|left; by apply handle_commit_arity].
    right. eexists. apply handle_commit_run.
Qed.
End handlers_run.

(** What [rstrip] leaves is empty or has a character that is no space. *)
Lemma isblank_rstrip (s : string) : isblank (rstrip s) = true → rstrip s = "".
Proof.
  induction s as [|c s IH]; cbn; [done|].
  destruct (rstrip s) as [|c' r] eqn:Hr.
  - destruct (isspace c) eqn:Hc; [done|]. cbn. by rewrite Hc.
  - cbn. intros [_ Hblank]%andb_prop. by apply IH in Hblank.
Qed.

Lemma split_loop_nil (tok s : string) :
  split_loop tok s = [] → tok = "" ∧ isblank s = true.
Proof.
  revert tok. induction s as [|c s IH]; intros tok; cbn.
  - by case_bool_decide.
  - destruct (isspace c); cbn.
    + case_bool_decide; [|done]. intros [_ ?]%IH. done.
    + intros [Htok _]%IH. by destruct tok.
Qed.

(** The unpacking [cmd_name, *parts = line.split()] finds a first token. *)
Lemma split_strip_nonempty (raw : string) :
  strip raw ≠ "" → ∃ name args, split (strip raw) = name :: args.
Proof.
  intros Hne. destruct (split (strip raw)) as [|name args] eqn:Hsplit; [|eauto].
  apply split_loop_nil in Hsplit as [_ Hblank].
  destruct Hne. by apply isblank_rstrip.
Qed.

(** The body of the loop raises nothing on a store that has a layer: it
    either asks to end with code 0 or goes on, having made at most one call
    on the store, and the store still has a layer. *)
Lemma loop_body_total (raw : string) (w : world) :
  _layers (w_db w) ≠ [] →
  ∃ r w' cs,
    loop_body raw w = Some (r, w') ∧
    (r = None ∨ r = Some 0) ∧
    w_calls w' = w_calls w ++ cs ∧ (length cs ≤ 1)%nat ∧
    steps cs (w_db w) = Some (w_db w') ∧
    _layers (w_db w') ≠ [].
Proof.
  intros Hw.
  destruct (decide (strip raw = "")) as [Hblank|Hline].
  { exists None, w, []. unfold loop_body. rewrite bool_decide_eq_true_2 by done.
    rewrite app_nil_r. cbn. auto 10. }
  destruct (split_strip_nonempty raw Hline) as (name & args & Htok).
  rewrite (loop_body_tokens raw name args w Htok).
  case_bool_decide.
  { exists (Some 0), w, []. rewrite app_nil_r. cbn. auto 10. }
  destruct (COMMANDS !! upper name) as [handler|] eqn:Hcmd.
  - destruct (handler_refuses_or_performs w Hw _ _ args Hcmd)
      as [Hno|(c & db' & out & Hrun & Hstep)]; unfold bind.
    + rewrite Hno. cbn. eexists None, _, []. cbn. rewrite app_nil_r. auto 10.
    + rewrite Hrun. cbn. eexists None, _, [c]. cbn. rewrite Hstep. cbn.
      split; [done|]. split; [by left|]. split; [done|]. split; [done|].
      split; [done|].
      destruct (step_depth c (w_db w)) as (db1 & Hstep1 & Hd).
      { destruct (_layers (w_db w)); [done|cbn; lia]. }
      rewrite Hstep in Hstep1. injection Hstep1 as <-.
      intros E. cbn in E. rewrite E in Hd. cbn in Hd.
      destruct (_layers (w_db w)); [done|].
      destruct c; cbn in Hd; try case_bool_decide; lia.
  - exists None. eexists _, []. cbn. rewrite app_nil_r. auto 10.
Qed.

(** ** A session *)

Example session_end_to_end :
  (λ r, (r.1, w_out r.2)) <$>
    main [ Line "SET a 10"; Line "GET a"; Line "BEGIN"; Line "SET a 20";
           Line "GET a"; Line "ROLLBACK"; Line "GET a"; Line "UNSET a";
           Line "GET a"; Line "SET b 10"; Line "SET c 10"; Line "COUNTS 10";
           Line "FIND 10"; Line "GET"; Line "FOO x"; Line "commit";
           Line "end" ]
  = Some (0, [ Prompt "> "; Prompt "> "; Print "10"; Prompt "> "; Prompt "> ";
               Prompt "> "; Print "20"; Prompt "> "; Prompt "> "; Print "10";
               Prompt "> "; Prompt "> "; Print "NULL"; Prompt "> ";
               Prompt "> "; Prompt "> "; Print "2"; Prompt "> ";
               Print "b c"; Prompt "> "; Print "ERROR"; Prompt "> ";
               Print "ERROR"; Prompt "> "; Print "NO TRANSACTION";
               Prompt "> " ]).
Proof. vm_compute. reflexivity. Qed.

Example nested_rollback :
  (db1 ← set_value (begin __init__) "k" "a";
   db2 ← set_value (begin db1) "k" "b";
   '(_, db3) ← rollback db2;
   Some (get_value db3 "k"))
  = Some (Some "a").
Proof. vm_compute. reflexivity. Qed.

(** * Further properties of the store *)

(** ** Writing a key *)

(** X1.  On a store that has a layer, [set_value] succeeds; afterwards
    [get_value] of the key is the value, [get_value] of every other key is
    what it was, and the layers under the top one are the same objects with
    the same content. *)
Theorem set_value_then_get (db : InMemoryDB) (key value : string) :
  _layers db ≠ [] →
  ∃ db',
    set_value db key value = Some db' ∧
    get_value db' key = Some value ∧
    (∀ key', key' ≠ key → get_value db' key' = get_value db key') ∧
    length (_layers db') = length (_layers db) ∧
    (∀ i, (S i < length (_layers db))%nat → _layers db' !! i = _layers db !! i).
Proof.
  intros (ls & top & ->)%layers_snoc_inv.
  exists (mkDB (ls ++ [<[key := Real value]> top])).
  split; [apply set_value_snoc|]. split; [|split; [|split]].
  - by rewrite get_value_snoc, lookup_insert_eq.
  - intros key' Hne. by rewrite !get_value_snoc, lookup_insert_ne.
  - cbn. by rewrite !length_app.
  - intros i. cbn [_layers]. rewrite length_app. cbn [length]. intros Hi.
    by rewrite !lookup_app_l by lia.
Qed.

Lemma set_value_then_get_witness :
  ∃ db',
    set_value (mkDB [ {["a" := Real "1"]}; {["a" := DELETED]} ]) "a" "2" = Some db' ∧
    get_value db' "a" = Some "2".
Proof.
  destruct (set_value_then_get
              (mkDB [ {["a" := Real "1"]}; {["a" := DELETED]} ]) "a" "2")
    as (db' & Hset & Hget & _); [discriminate|].
  by exists db'.
Defined.

(** X2.  On a store that has a layer, [unset_value] succeeds; afterwards
    [get_value] of every other key is what it was, the layers under the top
    one are unchanged, and the key is still among [_all_keys]. *)
Theorem unset_value_frame (db : InMemoryDB) (key : string) :
  _layers db ≠ [] →
  ∃ db',
    unset_value db key = Some db' ∧
    (∀ key', key' ≠ key → get_value db' key' = get_value db key') ∧
    length (_layers db') = length (_layers db) ∧
    (∀ i, (S i < length (_layers db))%nat → _layers db' !! i = _layers db !! i) ∧
    key ∈ _all_keys db'.
Proof.
  intros (ls & top & ->)%layers_snoc_inv.
  exists (mkDB (ls ++ [<[key := DELETED]> top])).
  split; [apply unset_value_snoc|]. split; [|split; [|split]].
  - intros key' Hne. by rewrite !get_value_snoc, lookup_insert_ne.
  - cbn. by rewrite !length_app.
  - intros i. cbn [_layers]. rewrite length_app. cbn [length]. intros Hi.
    by rewrite !lookup_app_l by lia.
  - apply elem_of_all_keys. exists (<[key := DELETED]> top). cbn [_layers].
    split; [apply elem_of_app; right; by left|].
    by rewrite lookup_insert_eq.
Qed.

Lemma unset_value_frame_witness :
  ∃ db',
    unset_value (mkDB [ {["a" := Real "1"; "b" := Real "2"]} ]) "a" = Some db' ∧
    get_value db' "b" = Some "2" ∧ "a" ∈ _all_keys db'.
Proof.
  destruct (unset_value_frame (mkDB [ {["a" := Real "1"; "b" := Real "2"]} ]) "a")
    as (db' & Hunset & Hframe & _ & _ & Hkeys); [discriminate|].
  exists db'. split; [done|]. split; [|done].
  rewrite (Hframe "b") by discriminate. reflexivity.
Defined.

(** X3.  The last write to a key in a layer is the one that stays: writing
    a key twice, by [set_value] or [unset_value], gives the store the second
    write alone gives (and raises when the second write alone does). *)
Theorem last_write_wins (db : InMemoryDB) (key v1 v2 : string) :
  (db1 ← set_value db key v1; set_value db1 key v2) = set_value db key v2 ∧
  (db1 ← unset_value db key; set_value db1 key v2) = set_value db key v2 ∧
  (db1 ← set_value db key v1; unset_value db1 key) = unset_value db key ∧
  (db1 ← unset_value db key; unset_value db1 key) = unset_value db key.
Proof.
  destruct db as [ls]. destruct ls as [|top ls _] using rev_ind.
  - unfold set_value, unset_value. cbn [_layers].
    by rewrite !mutate_item_nil.
  - rewrite !set_value_snoc, !unset_value_snoc. cbn.
    rewrite !set_value_snoc, !unset_value_snoc.
    by rewrite !insert_insert_eq.
Qed.

(** X4.  The pair [_effective_get] returns is [(True, value)] when
    [get_value] returns the value and [(False, None)] otherwise: the flag
    is set exactly when a value comes with it. *)
Theorem effective_get_pair (db : InMemoryDB) (key : string) :
  _effective_get db key =
  match get_value db key with
  | Some value => (true, Some value)
  | None => (false, None)
  end.
Proof.
  destruct db as [ls]. induction ls as [|top ls IH] using rev_ind.
  - reflexivity.
  - rewrite effective_get_snoc, get_value_snoc.
    by destruct (top !! key) as [[v|]|].
Qed.

(** ** Closing a transaction *)

(** X5.  With two layers or more, [rollback] returns [True] and leaves the
    stack without its top layer, the other layers being untouched; a key
    the top layer did not have reads as before. *)
Theorem rollback_discards_top (db : InMemoryDB) :
  (2 ≤ length (_layers db))%nat →
  ∃ ls top,
    _layers db = ls ++ [top] ∧
    rollback db = Some (true, mkDB ls) ∧
    ∀ key, top !! key = None → get_value (mkDB ls) key = get_value db key.
Proof.
  intros (ls & below & top & ->)%layers_snoc2_inv.
  exists (ls ++ [below]), top. cbn [_layers]. split; [apply snoc2_assoc|].
  split; [apply rollback_snoc2|].
  intros key Hk. by rewrite snoc2_assoc, (get_value_snoc (ls ++ [below])), Hk.
Qed.

Lemma rollback_discards_top_witness :
  ∃ ls top,
    [ {["a" := Real "1"]}; {["b" := Real "2"]} ] = ls ++ [top] ∧
    rollback (mkDB [ {["a" := Real "1"]}; {["b" := Real "2"]} ])
    = Some (true, mkDB ls) ∧
    ∀ key, top !! key = None →
           get_value (mkDB ls) key
           = get_value (mkDB [ {["a" := Real "1"]}; {["b" := Real "2"]} ]) key.
Proof.
  apply (rollback_discards_top (mkDB [ {["a" := Real "1"]}; {["b" := Real "2"]} ])).
  cbn. lia.
Defined.

(** X6.  With two layers or more, [commit] returns [True] and changes what
    no key reads as: [get_value] gives for every key what it gave before,
    and [_all_keys] is the same set. *)
Theorem commit_preserves_get (db : InMemoryDB) :
  (2 ≤ length (_layers db))%nat →
  ∃ db',
    commit db = Some (true, db') ∧
    (∀ key, get_value db' key = get_value db key) ∧
    _all_keys db' = _all_keys db.
Proof.
  intros (ls & below & top & ->)%layers_snoc2_inv.
  exists (mkDB (ls ++ [top ∪ below])). split; [apply commit_snoc2|]. split.
  - intros key. rewrite snoc2_assoc, !get_value_snoc, lookup_union.
    destruct (top !! key) as [[v|]|]; cbn.
    + by destruct (below !! key).
    + by destruct (below !! key).
    + by rewrite (left_id_L None (∪)).
  - apply set_eq. intros key. rewrite !elem_of_all_keys. cbn [_layers].
    split.
    + intros (l & [Hl|Hl]%elem_of_app & Hk).
      * exists l. split; [apply elem_of_app; by left|done].
      * apply list_elem_of_singleton in Hl as ->.
        rewrite lookup_union in Hk.
        destruct (top !! key) as [e|] eqn:Htop.
        -- exists top. rewrite Htop. split; [|done].
           apply elem_of_app. right. right. by left.
        -- exists below. rewrite (left_id_L None (∪)) in Hk. split; [|done].
           apply elem_of_app. right. by left.
    + intros (l & [Hl|Hl]%elem_of_app & Hk).
      * exists l. split; [apply elem_of_app; by left|done].
      * exists (top ∪ below). split; [apply elem_of_app; right; by left|].
        rewrite lookup_union.
        apply elem_of_cons in Hl as [->|Hl].
        -- destruct Hk as [e ->]. by destruct (top !! key).
        -- apply list_elem_of_singleton in Hl as ->.
           destruct Hk as [e ->]. by destruct (below !! key).
Qed.

Lemma commit_preserves_get_witness :
  ∃ db',
    commit (mkDB [ {["a" := Real "1"]}; {["a" := DELETED]} ]) = Some (true, db') ∧
    (∀ key, get_value db' key
            = get_value (mkDB [ {["a" := Real "1"]}; {["a" := DELETED]} ]) key) ∧
    _all_keys db' = _all_keys (mkDB [ {["a" := Real "1"]}; {["a" := DELETED]} ]).
Proof.
  apply (commit_preserves_get (mkDB [ {["a" := Real "1"]}; {["a" := DELETED]} ])).
  cbn. lia.
Defined.

(** ** Sequences of calls inside a transaction *)

Lemma stack_snoc (ls : list layer) (y : layer) (u : list layer) (top : layer) :
  ls ++ y :: u ++ [top] = (ls ++ y :: u) ++ [top].
Proof. by rewrite app_comm_cons, app_assoc. Qed.

Lemma stack_snoc2 (ls : list layer) (y : layer) (u : list layer) (below top : layer) :
  ls ++ y :: (u ++ [below]) ++ [top] = (ls ++ y :: u) ++ [below; top].
Proof. by rewrite <-!app_assoc. Qed.

(** One call made while the layers [x :: u] are on top of the stack, where
    the call does not close [x]: it acts on these layers only, whatever the
    layers [ls] under them, and what [x] had at the start (the part [b]) is
    only ever overwritten key by key. *)
Lemma step_in_txn (c : core_call) (x : layer) (u : list layer) :
  (closes c = true → u ≠ []) →
  ∃ x' u',
    (∀ ls b, step c (mkDB (ls ++ (x ∪ b) :: u))
             = Some (mkDB (ls ++ (x' ∪ b) :: u'))) ∧
    S (length u') = depth_after c (S (length u)).
Proof.
  intros Hclose. destruct u as [|top u _] using rev_ind.
  - destruct c; cbn [step depth_after]; try (by destruct Hclose).
    + exists (<[key := Real value]> x), []. split; [|done]. intros ls b.
      by rewrite set_value_snoc, insert_union_l.
    + exists x, []. by split.
    + exists (<[key := DELETED]> x), []. split; [|done]. intros ls b.
      by rewrite unset_value_snoc, insert_union_l.
    + exists x, []. by split.
    + exists x, []. by split.
    + exists x, [∅]. split; [|done]. intros ls b.
      unfold begin. cbn [_layers]. by rewrite <-app_assoc.
  - destruct c; cbn [step depth_after].
    + exists x, (u ++ [<[key := Real value]> top]). split.
      * intros ls b. by rewrite !stack_snoc, set_value_snoc.
      * by rewrite !length_app.
    + exists x, (u ++ [top]). by split.
    + exists x, (u ++ [<[key := DELETED]> top]). split.
      * intros ls b. by rewrite !stack_snoc, unset_value_snoc.
      * by rewrite !length_app.
    + exists x, (u ++ [top]). by split.
    + exists x, (u ++ [top]). by split.
    + exists x, ((u ++ [top]) ++ [∅]). split.
      * intros ls b. unfold begin. cbn [_layers].
        by rewrite <-(app_assoc ls).
      * rewrite !length_app. cbn [length]. lia.
    + destruct u as [|below u _] using rev_ind.
      * exists x, []. split; [|done]. intros ls b.
        cbn [app]. by rewrite rollback_snoc2.
      * exists x, (u ++ [below]). split.
        -- intros ls b. by rewrite stack_snoc2, rollback_snoc2, stack_snoc.
        -- rewrite !length_app. cbn [length].
           rewrite bool_decide_eq_false_2 by lia. lia.
    + destruct u as [|below u _] using rev_ind.
      * exists (top ∪ x), []. split; [|done]. intros ls b.
        cbn [app]. by rewrite commit_snoc2, (assoc_L (∪)).
      * exists x, (u ++ [top ∪ below]). split.
        -- intros ls b. by rewrite stack_snoc2, commit_snoc2, stack_snoc.
        -- rewrite !length_app. cbn [length].
           rewrite bool_decide_eq_false_2 by lia. lia.
Qed.

Lemma steps_in_txn (cs : list core_call) (x : layer) (u : list layer) (d : nat) :
  txn_depth cs (S (length u)) = Some d →
  ∃ x' u',
    (∀ ls b, steps cs (mkDB (ls ++ (x ∪ b) :: u))
             = Some (mkDB (ls ++ (x' ∪ b) :: u'))) ∧
    S (length u') = d.
Proof.
  revert x u. induction cs as [|c cs IH]; intros x u; cbn [txn_depth steps].
  - intros [= <-]. by exists x, u.
  - intros Hd.
    destruct (step_in_txn c x u) as (x1 & u1 & Hstep & Hlen).
    { intros Hc. rewrite Hc in Hd. intros ->. cbn in Hd.
      by rewrite bool_decide_eq_true_2 in Hd by lia. }
    assert (txn_depth cs (S (length u1)) = Some d) as Hd1.
    { rewrite Hlen. destruct (closes c) eqn:Hc; [|done].
      case_bool_decide; [done|].
      destruct c; try done; cbn [depth_after];
        by rewrite bool_decide_eq_false_2 by lia. }
    destruct (IH x1 u1 Hd1) as (x' & u' & Hsteps & Hlen').
    exists x', u'. split; [|done]. intros ls b.
    rewrite Hstep. cbn. apply Hsteps.
Qed.

(** X7.  A transaction that is rolled back leaves no trace: after [begin],
    any balanced calls (each [rollback] or [commit] among them closes a
    transaction that a [begin] among them opened before, and none of the
    transactions they open is left open), and then [rollback], the store is
    the one before [begin], layer by layer. *)
Theorem rolled_back_transaction_leaves_store (db : InMemoryDB) (cs : list core_call) :
  _layers db ≠ [] →
  txn_depth cs 1 = Some 1%nat →
  steps (CallBegin :: cs ++ [CallRollback]) db = Some db.
Proof.
  intros (ls & top & ->)%layers_snoc_inv Hd.
  destruct (steps_in_txn cs ∅ [] 1 Hd) as (x' & u' & Hsteps & Hlen).
  destruct u'; [|done].
  cbn [steps step mbind option_bind]. rewrite steps_app.
  unfold begin. cbn [_layers].
  rewrite <-(left_id_L ∅ (∪) ∅) at 1. rewrite Hsteps. cbn.
  by rewrite <-snoc2_assoc, rollback_snoc2.
Qed.

Lemma rolled_back_transaction_leaves_store_witness :
  steps (CallBegin ::
           [CallSet "k" "a"; CallBegin; CallSet "k" "b"; CallCommit; CallUnset "j"]
           ++ [CallRollback])
        (mkDB [ {["j" := Real "1"]} ])
  = Some (mkDB [ {["j" := Real "1"]} ]).
Proof.
  apply (rolled_back_transaction_leaves_store (mkDB [ {["j" := Real "1"]} ])).
  - discriminate.
  - reflexivity.
Defined.

(** X8.  A transaction that is committed is transparent: after [begin],
    any balanced calls (each [rollback] or [commit] among them closes a
    transaction that a [begin] among them opened before, and none of the
    transactions they open is left open), and then [commit], the store is
    the one the same calls give without [begin] and [commit]. *)
Theorem committed_transaction_is_transparent (db : InMemoryDB) (cs : list core_call) :
  _layers db ≠ [] →
  txn_depth cs 1 = Some 1%nat →
  ∃ db',
    steps cs db = Some db' ∧
    steps (CallBegin :: cs ++ [CallCommit]) db = Some db'.
Proof.
  intros (ls & top & ->)%layers_snoc_inv Hd.
  destruct (steps_in_txn cs ∅ [] 1 Hd) as (x' & u' & Hsteps & Hlen).
  destruct u'; [|done].
  exists (mkDB (ls ++ [x' ∪ top])). split.
  - rewrite <-(left_id_L ∅ (∪) top) at 1. apply Hsteps.
  - cbn [steps step mbind option_bind]. rewrite steps_app.
    unfold begin. cbn [_layers].
    rewrite <-(left_id_L ∅ (∪) ∅) at 1. rewrite Hsteps. cbn.
    rewrite <-snoc2_assoc, commit_snoc2. cbn.
    by rewrite <-(assoc_L (∪)), (left_id_L ∅ (∪)).
Qed.

Lemma committed_transaction_is_transparent_witness :
  ∃ db',
    steps [CallSet "k" "a"; CallBegin; CallSet "k" "b"; CallRollback; CallUnset "j"]
          (mkDB [ {["j" := Real "1"]} ]) = Some db' ∧
    steps (CallBegin ::
             [CallSet "k" "a"; CallBegin; CallSet "k" "b"; CallRollback; CallUnset "j"]
             ++ [CallCommit])
          (mkDB [ {["j" := Real "1"]} ]) = Some db'.
Proof.
  apply (committed_transaction_is_transparent (mkDB [ {["j" := Real "1"]} ])).
  - discriminate.
  - reflexivity.
Defined.

(** ** Lookups by value and the effective values *)

Global Instance str_le_trans : Transitive str_le.
Proof.
  intros a b c. unfold str_le, String.leb. intros Hab Hbc.
  destruct (String.compare a b) eqn:Eab; try done.
  - by apply String.compare_eq_iff in Eab as ->.
  - destruct (String.compare b c) eqn:Ebc; try done.
    + apply String.compare_eq_iff in Ebc as <-. by rewrite Eab.
    + by rewrite (string_compare_lt_trans a b c).
Qed.

Global Instance str_le_antisymm : AntiSymm (=) str_le.
Proof. intros a b. apply String.leb_antisym. Qed.

(** The keys both loops keep, before sorting: no key twice, and exactly
    the keys that read as the value. *)
Lemma matching_NoDup (db : InMemoryDB) (value : string) :
  NoDup (filter (λ key, get_value db key = Some value) (elements (_all_keys db))).
Proof. apply NoDup_filter, NoDup_elements. Qed.

Lemma elem_of_matching (db : InMemoryDB) (value key : string) :
  key ∈ filter (λ key, get_value db key = Some value) (elements (_all_keys db))
  ↔ get_value db key = Some value.
Proof.
  rewrite list_elem_of_filter, elem_of_elements.
  split; [by intros [? _]|]. intros Hk. split; [done|].
  by apply get_value_Some_all_keys with value.
Qed.

(** X9.  The lookups by value see the effective values only: on two stores
    where [get_value] agrees for every key, however the layers differ,
    [find_keys_by_value] returns the same list and [count_value] the same
    number. *)
Theorem by_value_extensional (db1 db2 : InMemoryDB) (value : string) :
  (∀ key, get_value db1 key = get_value db2 key) →
  find_keys_by_value db1 value = find_keys_by_value db2 value ∧
  count_value db1 value = count_value db2 value.
Proof.
  intros Hget.
  assert (filter (λ key, get_value db1 key = Some value) (elements (_all_keys db1))
          ≡ₚ filter (λ key, get_value db2 key = Some value) (elements (_all_keys db2)))
    as Hperm.
  { apply NoDup_Permutation; [apply matching_NoDup..|].
    intros key. by rewrite !elem_of_matching, Hget. }
  split.
  - rewrite !find_keys_by_value_filter.
    apply (Sorted_unique str_le); [apply (Sorted_merge_sort str_le)..|].
    by rewrite !sort_Permutation.
  - rewrite !count_value_filter. by rewrite Hperm.
Qed.

Lemma by_value_extensional_witness :
  find_keys_by_value (mkDB [ {["a" := Real "1"]}; {["a" := DELETED; "b" := Real "1"]} ]) "1"
  = find_keys_by_value (mkDB [ {["b" := Real "1"]} ]) "1" ∧
  count_value (mkDB [ {["a" := Real "1"]}; {["a" := DELETED; "b" := Real "1"]} ]) "1"
  = count_value (mkDB [ {["b" := Real "1"]} ]) "1".
Proof.
  apply (by_value_extensional
           (mkDB [ {["a" := Real "1"]}; {["a" := DELETED; "b" := Real "1"]} ])
           (mkDB [ {["b" := Real "1"]} ]) "1").
  intros key.
  destruct (decide (key = "a")) as [->|Ha]; [reflexivity|].
  destruct (decide (key = "b")) as [->|Hb]; [reflexivity|].
  etrans; [apply (get_value_snoc [ {["a" := Real "1"]} ]
                    {["a" := DELETED; "b" := Real "1"]} key)|].
  rewrite lookup_insert_ne, lookup_singleton_ne by done.
  etrans; [apply (get_value_snoc [] {["a" := Real "1"]} key)|].
  rewrite lookup_singleton_ne by done.
  symmetry. etrans; [apply (get_value_snoc [] {["b" := Real "1"]} key)|].
  by rewrite lookup_singleton_ne.
Defined.

(** A list without repetition loses one element when a member is filtered
    out and none otherwise. *)
Lemma length_filter_ne (l : list string) (k : string) :
  NoDup l →
  length l = (length (filter (λ x, x ≠ k) l) + (if decide (k ∈ l) then 1 else 0))%nat.
Proof.
  induction 1 as [|a l Ha Hl IH]; [done|].
  rewrite filter_cons. destruct (decide (a ≠ k)) as [Hne|Heq%dec_stable].
  - cbn [length]. rewrite IH.
    destruct (decide (k ∈ l)), (decide (k ∈ a :: l)) as [Hin|Hnin]; try lia.
    + destruct Hnin. by right.
    + apply elem_of_cons in Hin as [->|?]; done.
  - subst a. cbn [length]. rewrite IH.
    rewrite (decide_True (P := k ∈ k :: l)) by left.
    by rewrite (decide_False (P := k ∈ l)), Nat.add_0_r, Nat.add_1_r.
Qed.

(** When two stores differ in what one key reads as, and in that only, the
    count of a value loses that key if it read as the value and gains it if
    it now does. *)
Lemma count_value_update (db db' : InMemoryDB) (k value : string) :
  (∀ key, key ≠ k → get_value db' key = get_value db key) →
  (count_value db' value + (if decide (get_value db k = Some value) then 1 else 0)
   = count_value db value + (if decide (get_value db' k = Some value) then 1 else 0))%nat.
Proof.
  intros Hframe. rewrite !count_value_filter.
  rewrite (length_filter_ne _ k (matching_NoDup db value)).
  rewrite (length_filter_ne _ k (matching_NoDup db' value)).
  assert (filter (λ x, x ≠ k)
            (filter (λ key, get_value db' key = Some value) (elements (_all_keys db')))
          ≡ₚ filter (λ x, x ≠ k)
            (filter (λ key, get_value db key = Some value) (elements (_all_keys db))))
    as ->.
  { apply NoDup_Permutation; [apply NoDup_filter, matching_NoDup..|].
    intros key.
    split; intros [Hne Hk%elem_of_matching]%list_elem_of_filter;
      apply list_elem_of_filter; (split; [done|]); apply elem_of_matching.
    - by rewrite <-Hframe.
    - by rewrite Hframe. }
  repeat case_decide; rewrite ?elem_of_matching in *; try done; lia.
Qed.

(** X10.  After [set_value key value] the count of [value] has gained the
    key unless the key already read as [value], and the count of any other
    value has lost the key if it read as that value.  After [unset_value]
    the count of the value the key read as has lost it, and no count has
    gained. *)
Theorem count_value_after_write (db : InMemoryDB) (key value : string) :
  _layers db ≠ [] →
  (∃ db',
     set_value db key value = Some db' ∧
     ∀ v, (count_value db' v + (if decide (get_value db key = Some v) then 1 else 0)
           = count_value db v + (if decide (v = value) then 1 else 0))%nat) ∧
  (∃ db',
     unset_value db key = Some db' ∧
     ∀ v, (count_value db' v + (if decide (get_value db key = Some v) then 1 else 0)
           = count_value db v)%nat).
Proof.
  intros (ls & top & ->)%layers_snoc_inv. split.
  - exists (mkDB (ls ++ [<[key := Real value]> top])).
    split; [apply set_value_snoc|]. intros v.
    rewrite (count_value_update (mkDB (ls ++ [top])) _ key v).
    + rewrite (get_value_snoc ls (<[key := Real value]> top)), lookup_insert_eq.
      f_equal. repeat case_decide; congruence.
    + intros key' Hne. by rewrite !get_value_snoc, lookup_insert_ne.
  - exists (mkDB (ls ++ [<[key := DELETED]> top])).
    split; [apply unset_value_snoc|]. intros v.
    rewrite (count_value_update (mkDB (ls ++ [top])) _ key v).
    + rewrite (get_value_snoc ls (<[key := DELETED]> top)), lookup_insert_eq.
      rewrite decide_False by done. lia.
    + intros key' Hne. by rewrite !get_value_snoc, lookup_insert_ne.
Qed.

Lemma count_value_after_write_witness :
  (∃ db',
     set_value (mkDB [ {["a" := Real "1"]} ]) "b" "1" = Some db' ∧
     count_value db' "1" = 2%nat) ∧
  (∃ db',
     unset_value (mkDB [ {["a" := Real "1"]} ]) "a" = Some db' ∧
     count_value db' "1" = 0%nat).
Proof.
  destruct (count_value_after_write (mkDB [ {["a" := Real "1"]} ]) "b" "1")
    as [(db1 & Hset & Hc1) _]; [discriminate|].
  destruct (count_value_after_write (mkDB [ {["a" := Real "1"]} ]) "a" "1")
    as [_ (db2 & Hunset & Hc2)]; [discriminate|].
  split.
  - exists db1. split; [done|]. specialize (Hc1 "1").
    change (count_value db1 "1" + 0 = 1 + 1)%nat in Hc1. lia.
  - exists db2. split; [done|]. specialize (Hc2 "1").
    change (count_value db2 "1" + 1 = 1)%nat in Hc2. lia.
Defined.

(** X11.  [_all_keys] is the union of the key sets of all the layers,
    keys marked [DELETED] included. *)
Theorem all_keys_union (db : InMemoryDB) :
  _all_keys db = ⋃ (dom <$> _layers db).
Proof.
  apply set_eq. intros key.
  rewrite elem_of_all_keys, elem_of_union_list. split.
  - intros (l & Hl & Hk). exists (dom l). split.
    + apply list_elem_of_fmap. by exists l.
    + by apply elem_of_dom.
  - intros (X & (l & -> & Hl)%list_elem_of_fmap & Hk).
    exists l. split; [done|]. by apply elem_of_dom.
Qed.

(** X12.  [count_value] never exceeds the number of keys of [_all_keys]. *)
Theorem count_value_bound (db : InMemoryDB) (value : string) :
  (count_value db value ≤ size (_all_keys db))%nat.
Proof.
  rewrite count_value_filter. unfold size, set_size. cbn.
  apply length_filter.
Qed.

(** * Further properties of the interpreter *)

(** ** What each command line does *)

Section handlers_exact.
Variable w : world.

Lemma handle_get_exact (key : string) :
  handle_get [key] w
  = Some (true, mkWorld (w_db w)
                  (w_out w ++ [Print (default "NULL" (get_value (w_db w) key))])
                  (w_calls w ++ [CallGet key])).
Proof.
  unfold handle_get. rewrite bool_decide_eq_false_2 by (by intros []).
  unfold bind. rewrite arg_0. cbn. by destruct (get_value (w_db w) key).
Qed.

Lemma handle_counts_exact (value : string) :
  handle_counts [value] w
  = Some (true, mkWorld (w_db w)
                  (w_out w ++ [Print (pretty (count_value (w_db w) value))])
                  (w_calls w ++ [CallCount value])).
Proof.
  unfold handle_counts. rewrite bool_decide_eq_false_2 by (by intros []).
  unfold bind. by rewrite arg_0.
Qed.

Lemma handle_find_exact (value : string) :
  handle_find [value] w
  = Some (true, mkWorld (w_db w)
                  (w_out w ++ [Print (join " " (find_keys_by_value (w_db w) value))])
                  (w_calls w ++ [CallFind value])).
Proof.
  unfold handle_find. rewrite bool_decide_eq_false_2 by (by intros []).
  unfold bind. by rewrite arg_0.
Qed.

Lemma handle_set_exact (key value : string) (db' : InMemoryDB) :
  set_value (w_db w) key value = Some db' →
  handle_set [key; value] w
  = Some (true, mkWorld db' (w_out w) (w_calls w ++ [CallSet key value])).
Proof.
  intros Hset. unfold handle_set.
  rewrite bool_decide_eq_false_2 by (by intros []).
  unfold bind. rewrite arg_0, arg_1. unfold call. by rewrite Hset.
Qed.

Lemma handle_unset_exact (key : string) (db' : InMemoryDB) :
  unset_value (w_db w) key = Some db' →
  handle_unset [key] w
  = Some (true, mkWorld db' (w_out w) (w_calls w ++ [CallUnset key])).
Proof.
  intros Hunset. unfold handle_unset.
  rewrite bool_decide_eq_false_2 by (by intros []).
  unfold bind. rewrite arg_0. unfold call. by rewrite Hunset.
Qed.

Lemma handle_begin_exact :
  handle_begin [] w
  = Some (true, mkWorld (begin (w_db w)) (w_out w) (w_calls w ++ [CallBegin])).
Proof.
  unfold handle_begin. by rewrite bool_decide_eq_false_2 by (by intros []).
Qed.

Lemma handle_rollback_exact (ok : bool) (db' : InMemoryDB) :
  rollback (w_db w) = Some (ok, db') →
  handle_rollback [] w
  = Some (true, mkWorld db'
                  (w_out w ++ if ok then [] else [Print "NO TRANSACTION"])
                  (w_calls w ++ [CallRollback])).
Proof.
  intros Hrb. unfold handle_rollback.
  rewrite bool_decide_eq_false_2 by (by intros []).
  unfold bind, call. rewrite Hrb. destruct ok; cbn; [|done].
  by rewrite app_nil_r.
Qed.

Lemma handle_commit_exact (ok : bool) (db' : InMemoryDB) :
  commit (w_db w) = Some (ok, db') →
  handle_commit [] w
  = Some (true, mkWorld db'
                  (w_out w ++ if ok then [] else [Print "NO TRANSACTION"])
                  (w_calls w ++ [CallCommit])).
Proof.
  intros Hc. unfold handle_commit.
  rewrite bool_decide_eq_false_2 by (by intros []).
  unfold bind, call. rewrite Hc. destruct ok; cbn; [|done].
  by rewrite app_nil_r.
Qed.
End handlers_exact.

(** A line whose first token names a handler is handed to that handler;
    ERROR is printed when the handler returns [False]. *)
Lemma loop_body_handler (raw name cmd : string) (args : list string)
    (handler : list string → M bool) (w : world) :
  split (strip raw) = name :: args →
  upper name = cmd → cmd ≠ "END" → COMMANDS !! cmd = Some handler →
  loop_body raw w =
  (let* ok := handler args in
   if negb ok then let* _ := print "ERROR" in ret None else ret None) w.
Proof.
  intros Htok <- Hend Hcmd. rewrite (loop_body_tokens raw name args w Htok).
  by rewrite bool_decide_eq_false_2, Hcmd.
Qed.

(** The store has one layer, or it has more. *)
Lemma rollback_result (db : InMemoryDB) :
  _layers db ≠ [] →
  ∃ db', rollback db = Some (negb (bool_decide (length (_layers db) = 1%nat)), db').
Proof.
  intros Hne. case_bool_decide as Hlen.
  - destruct (layers_single_inv db Hlen) as [top ->]. by exists (mkDB [top]).
  - destruct (layers_snoc2_inv db) as (ls & below & top & ->).
    { destruct (_layers db) as [|? [|? ?]]; cbn in *; try done; lia. }
    rewrite rollback_snoc2. by eexists.
Qed.

Lemma commit_result (db : InMemoryDB) :
  _layers db ≠ [] →
  ∃ db', commit db = Some (negb (bool_decide (length (_layers db) = 1%nat)), db').
Proof.
  intros Hne. case_bool_decide as Hlen.
  - destruct (layers_single_inv db Hlen) as [top ->]. by exists (mkDB [top]).
  - destruct (layers_snoc2_inv db) as (ls & below & top & ->).
    { destruct (_layers db) as [|? [|? ?]]; cbn in *; try done; lia. }
    rewrite commit_snoc2. by eexists.
Qed.

(** X13.  A line GET k, COUNTS v or FIND v, the command in any case, makes
    the one call on the store, leaves the store as it was and prints one
    line: the value or NULL, the count in decimal, the keys joined by one
    space. *)
Theorem query_line_prints (raw name a : string) (w : world) :
  split (strip raw) = [name; a] →
  (upper name = "GET" →
     loop_body raw w
     = Some (None, mkWorld (w_db w)
                     (w_out w ++ [Print (default "NULL" (get_value (w_db w) a))])
                     (w_calls w ++ [CallGet a]))) ∧
  (upper name = "COUNTS" →
     loop_body raw w
     = Some (None, mkWorld (w_db w)
                     (w_out w ++ [Print (pretty (count_value (w_db w) a))])
                     (w_calls w ++ [CallCount a]))) ∧
  (upper name = "FIND" →
     loop_body raw w
     = Some (None, mkWorld (w_db w)
                     (w_out w ++ [Print (join " " (find_keys_by_value (w_db w) a))])
                     (w_calls w ++ [CallFind a]))).
Proof.
  intros Htok. split; [|split]; intros Hname.
  - rewrite (loop_body_handler raw name "GET" [a] handle_get w) by done.
    unfold bind. by rewrite handle_get_exact.
  - rewrite (loop_body_handler raw name "COUNTS" [a] handle_counts w) by done.
    unfold bind. by rewrite handle_counts_exact.
  - rewrite (loop_body_handler raw name "FIND" [a] handle_find w) by done.
    unfold bind. by rewrite handle_find_exact.
Qed.

Lemma query_line_prints_witness :
  loop_body "get a" (mkWorld (mkDB [ {["b" := Real "1"]} ]) [] [])
  = Some (None, mkWorld (mkDB [ {["b" := Real "1"]} ]) [Print "NULL"] [CallGet "a"]) ∧
  loop_body " Counts  1" (mkWorld (mkDB [ {["b" := Real "1"]} ]) [] [])
  = Some (None, mkWorld (mkDB [ {["b" := Real "1"]} ]) [Print "1"] [CallCount "1"]) ∧
  loop_body "FIND 2" (mkWorld (mkDB [ {["b" := Real "1"]} ]) [] [])
  = Some (None, mkWorld (mkDB [ {["b" := Real "1"]} ]) [Print ""] [CallFind "2"]).
Proof.
  split; [|split].
  - rewrite (proj1 (query_line_prints "get a" "get" "a"
                      (mkWorld (mkDB [ {["b" := Real "1"]} ]) [] []) eq_refl) eq_refl).
    reflexivity.
  - rewrite (proj1 (proj2 (query_line_prints " Counts  1" "Counts" "1"
                      (mkWorld (mkDB [ {["b" := Real "1"]} ]) [] []) eq_refl)) eq_refl).
    reflexivity.
  - rewrite (proj2 (proj2 (query_line_prints "FIND 2" "FIND" "2"
                      (mkWorld (mkDB [ {["b" := Real "1"]} ]) [] []) eq_refl)) eq_refl).
    reflexivity.
Defined.

(** X14.  On a store that has a layer, a line SET k v, UNSET k or BEGIN,
    the command in any case, prints nothing, makes the one call, and leaves
    the store [set_value], [unset_value] or [begin] gives. *)
Theorem update_line_silent (raw name : string) (args : list string) (w : world) :
  split (strip raw) = name :: args →
  _layers (w_db w) ≠ [] →
  (upper name = "SET" → ∀ k v, args = [k; v] →
     ∃ db', set_value (w_db w) k v = Some db' ∧
            loop_body raw w
            = Some (None, mkWorld db' (w_out w) (w_calls w ++ [CallSet k v]))) ∧
  (upper name = "UNSET" → ∀ k, args = [k] →
     ∃ db', unset_value (w_db w) k = Some db' ∧
            loop_body raw w
            = Some (None, mkWorld db' (w_out w) (w_calls w ++ [CallUnset k]))) ∧
  (upper name = "BEGIN" → args = [] →
     loop_body raw w
     = Some (None, mkWorld (begin (w_db w)) (w_out w) (w_calls w ++ [CallBegin]))).
Proof.
  intros Htok Hw. split; [|split].
  - intros Hname k v ->.
    destruct (layers_snoc_inv _ Hw) as (ls & top & Hdb).
    exists (mkDB (ls ++ [<[k := Real v]> top])).
    assert (set_value (w_db w) k v = Some (mkDB (ls ++ [<[k := Real v]> top])))
      as Hset by (rewrite Hdb; apply set_value_snoc).
    split; [done|].
    rewrite (loop_body_handler raw name "SET" [k; v] handle_set w) by done.
    unfold bind. by rewrite (handle_set_exact w k v _ Hset).
  - intros Hname k ->.
    destruct (layers_snoc_inv _ Hw) as (ls & top & Hdb).
    exists (mkDB (ls ++ [<[k := DELETED]> top])).
    assert (unset_value (w_db w) k = Some (mkDB (ls ++ [<[k := DELETED]> top])))
      as Hunset by (rewrite Hdb; apply unset_value_snoc).
    split; [done|].
    rewrite (loop_body_handler raw name "UNSET" [k] handle_unset w) by done.
    unfold bind. by rewrite (handle_unset_exact w k _ Hunset).
  - intros Hname ->.
    rewrite (loop_body_handler raw name "BEGIN" [] handle_begin w) by done.
    unfold bind. by rewrite handle_begin_exact.
Qed.

Lemma update_line_silent_witness :
  (∃ db', set_value __init__ "a" "1" = Some db' ∧
          loop_body "set a 1" (mkWorld __init__ [] [])
          = Some (None, mkWorld db' [] [CallSet "a" "1"])) ∧
  (∃ db', unset_value __init__ "a" = Some db' ∧
          loop_body "Unset a" (mkWorld __init__ [] [])
          = Some (None, mkWorld db' [] [CallUnset "a"])) ∧
  loop_body "BEGIN" (mkWorld __init__ [] [])
  = Some (None, mkWorld (begin __init__) [] [CallBegin]).
Proof.
  split; [|split].
  - exact (proj1 (update_line_silent "set a 1" "set" ["a"; "1"]
                    (mkWorld __init__ [] []) eq_refl ltac:(discriminate))
                 eq_refl "a" "1" eq_refl).
  - exact (proj1 (proj2 (update_line_silent "Unset a" "Unset" ["a"]
                    (mkWorld __init__ [] []) eq_refl ltac:(discriminate)))
                 eq_refl "a" eq_refl).
  - exact (proj2 (proj2 (update_line_silent "BEGIN" "BEGIN" []
                    (mkWorld __init__ [] []) eq_refl ltac:(discriminate)))
                 eq_refl eq_refl).
Defined.

(** X15.  On a store that has a layer, a line ROLLBACK or COMMIT, the
    command in any case, makes the one call; it prints NO TRANSACTION when
    the store has exactly one layer, and nothing when it has more. *)
Theorem close_line_reports (raw name : string) (w : world) :
  split (strip raw) = [name] →
  _layers (w_db w) ≠ [] →
  (upper name = "ROLLBACK" →
     ∃ ok db',
       rollback (w_db w) = Some (ok, db') ∧
       ok = negb (bool_decide (length (_layers (w_db w)) = 1%nat)) ∧
       loop_body raw w
       = Some (None, mkWorld db'
                       (w_out w ++ if ok then [] else [Print "NO TRANSACTION"])
                       (w_calls w ++ [CallRollback]))) ∧
  (upper name = "COMMIT" →
     ∃ ok db',
       commit (w_db w) = Some (ok, db') ∧
       ok = negb (bool_decide (length (_layers (w_db w)) = 1%nat)) ∧
       loop_body raw w
       = Some (None, mkWorld db'
                       (w_out w ++ if ok then [] else [Print "NO TRANSACTION"])
                       (w_calls w ++ [CallCommit]))).
Proof.
  intros Htok Hw. split; intros Hname.
  - destruct (rollback_result _ Hw) as [db' Hrb].
    eexists _, db'. split; [done|]. split; [done|].
    rewrite (loop_body_handler raw name "ROLLBACK" [] handle_rollback w) by done.
    unfold bind. rewrite (handle_rollback_exact w _ _ Hrb). cbn.
    by destruct (negb _).
  - destruct (commit_result _ Hw) as [db' Hc].
    eexists _, db'. split; [done|]. split; [done|].
    rewrite (loop_body_handler raw name "COMMIT" [] handle_commit w) by done.
    unfold bind. rewrite (handle_commit_exact w _ _ Hc). cbn.
    by destruct (negb _).
Qed.

Lemma close_line_reports_witness :
  loop_body "rollback" (mkWorld __init__ [] [])
  = Some (None, mkWorld __init__ [Print "NO TRANSACTION"] [CallRollback]) ∧
  loop_body "COMMIT" (mkWorld (begin __init__) [] [])
  = Some (None, mkWorld __init__ [] [CallCommit]).
Proof.
  split.
  - destruct (proj1 (close_line_reports "rollback" "rollback"
                       (mkWorld __init__ [] []) eq_refl ltac:(discriminate)) eq_refl)
      as (ok & db' & Hrb & -> & ->).
    injection Hrb as <-. reflexivity.
  - destruct (proj2 (close_line_reports "COMMIT" "COMMIT"
                       (mkWorld (begin __init__) [] []) eq_refl ltac:(discriminate)) eq_refl)
      as (ok & db' & Hc & -> & ->).
    injection Hc as <-. reflexivity.
Defined.

(** ** What [main] returns and what it reads *)

(** The body of the loop asks [main] to return exactly on an END line. *)
Lemma loop_body_result (raw : string) (w w' : world) (r : option Z) :
  loop_body raw w = Some (r, w') → r = if is_end raw then Some 0 else None.
Proof.
  unfold is_end. destruct (decide (strip raw = "")) as [Hblank|Hline].
  { unfold loop_body. rewrite Hblank. cbn. by intros [= <- _]. }
  destruct (split_strip_nonempty raw Hline) as (name & args & Htok).
  rewrite (loop_body_tokens raw name args w Htok), Htok.
  case_bool_decide; [by intros [= <- _]|].
  destruct (COMMANDS !! upper name) as [handler|].
  - unfold bind. destruct (handler args w) as [[[] w1]|]; cbn; [..|done].
    + by intros [= <- _].
    + by intros [= <- _].
  - cbn. by intros [= <- _].
Qed.

Lemma main_loop_exit_code (stdin : list stdin_event) (w : world) :
  _layers (w_db w) ≠ [] →
  match expected_code stdin with
  | Some code =>
      ∃ w', main_loop stdin w = Some (code, w') ∧ _layers (w_db w') ≠ []
  | None => main_loop stdin w = None
  end.
Proof.
  revert w. induction stdin as [|[raw| |] rest IH]; intros w Hw;
    cbn [expected_code].
  - by eexists.
  - destruct (loop_body_total raw
                (mkWorld (w_db w) (w_out w ++ [Prompt "> "]) (w_calls w)) Hw)
      as (r & w' & cs & Hbody & _ & _ & _ & _ & Hw').
    assert (main_loop (Line raw :: rest) w
            = match r with
              | Some code => Some (code, w')
              | None => main_loop rest w'
              end) as ->.
    { cbn [main_loop]. unfold bind at 1. cbn [prompt]. unfold bind at 1.
      rewrite Hbody. by destruct r, rest. }
    apply loop_body_result in Hbody as ->.
    destruct (is_end raw); [by exists w'|by apply IH].
  - by eexists.
  - done.
Qed.

(** X16.  What [main] does is fixed by the outcomes of the calls of
    [input]: it returns 0 at the first END line or at the end of the
    input, and 130 at an interrupt at the prompt that comes before them,
    and the store then still has a layer; it ends by an exception exactly
    when [input] itself raises one that [main] does not catch before any of
    these.  No handler, no unpacking of the tokens and no method of the
    store ever raises. *)
Theorem main_exit_code (stdin : list stdin_event) :
  match expected_code stdin with
  | Some code =>
      ∃ w, main stdin = Some (code, w) ∧ _layers (w_db w) ≠ []
  | None => main stdin = None
  end.
Proof. apply main_loop_exit_code. discriminate. Qed.

(** ** Only the tokens of a line matter *)

Lemma str_app_nil_r (s : string) : s +:+ "" = s.
Proof.
  induction s as [|c s IH]; [done|].
  change (String c s +:+ "") with (String c (s +:+ "")). by rewrite IH.
Qed.

Lemma str_app_snoc (s t : string) (c : ascii) :
  (s +:+ String c "") +:+ t = s +:+ String c t.
Proof.
  induction s as [|a s IH]; [done|].
  change ((String a s +:+ String c "") +:+ t)
    with (String a ((s +:+ String c "") +:+ t)).
  by rewrite IH.
Qed.

Lemma nospace_snoc (s : string) (c : ascii) :
  nospace s = true → isspace c = false → nospace (s +:+ String c "") = true.
Proof.
  intros Hs Hc. induction s as [|a s IH].
  - change ("" +:+ String c "") with (String c ""). cbn [nospace]. by rewrite Hc.
  - change (String a s +:+ String c "") with (String a (s +:+ String c "")).
    cbn [nospace] in Hs |- *. apply andb_prop in Hs as [-> Hs]. by rewrite IH.
Qed.

Lemma split_loop_cons (tok : string) (c : ascii) (s : string) :
  split_loop tok (String c s) =
  if isspace c
  then (if bool_decide (tok = "") then split_loop "" s else tok :: split_loop "" s)
  else split_loop (tok +:+ String c "") s.
Proof. reflexivity. Qed.

(** Leading and trailing whitespace makes no token. *)
Lemma split_loop_lstrip (s : string) : split_loop "" (lstrip s) = split_loop "" s.
Proof.
  induction s as [|c s IH]; [done|]. cbn [lstrip split_loop].
  destruct (isspace c) eqn:Hc; [done|]. cbn [split_loop]. by rewrite Hc.
Qed.

Lemma split_loop_rstrip (tok s : string) :
  split_loop tok (rstrip s) = split_loop tok s.
Proof.
  revert tok. induction s as [|c s IH]; intros tok; [done|].
  cbn [rstrip]. destruct (rstrip s) as [|c' r] eqn:Hr.
  - destruct (isspace c) eqn:Hc; cbn [split_loop]; rewrite Hc.
    + rewrite <-(IH ""). by case_bool_decide.
    + by rewrite <-IH.
  - rewrite (split_loop_cons tok c (String c' r)), (split_loop_cons tok c s).
    by rewrite !IH.
Qed.

Lemma split_strip (s : string) : split (strip s) = split s.
Proof. unfold split, strip. by rewrite split_loop_rstrip, split_loop_lstrip. Qed.

(** The tokens [split] returns are not empty and hold no whitespace. *)
Lemma split_loop_words (tok s : string) :
  nospace tok = true →
  Forall (λ t, t ≠ "" ∧ nospace t = true) (split_loop tok s).
Proof.
  revert tok. induction s as [|c s IH]; intros tok Htok; cbn [split_loop].
  - case_bool_decide; [constructor|]. by repeat constructor.
  - destruct (isspace c) eqn:Hc.
    + case_bool_decide; [by apply IH|].
      constructor; [done|by apply IH].
    + apply IH. by apply nospace_snoc.
Qed.

(** A string without whitespace is read into the token as a whole. *)
Lemma split_loop_word (tok t rest : string) :
  nospace t = true →
  split_loop tok (t +:+ rest) = split_loop (tok +:+ t) rest.
Proof.
  revert tok. induction t as [|c t IH]; intros tok Ht.
  - by rewrite str_app_nil_r.
  - cbn in Ht. apply andb_prop in Ht as [Hc%negb_true_iff Ht].
    change (String c t +:+ rest) with (String c (t +:+ rest)).
    rewrite split_loop_cons, Hc, IH by done.
    by rewrite str_app_snoc.
Qed.

(** Joining tokens by one space and splitting gives the tokens back. *)
Lemma split_join (ws : list string) :
  Forall (λ t, t ≠ "" ∧ nospace t = true) ws → split (join " " ws) = ws.
Proof.
  unfold split, join. induction 1 as [|x ws [Hx Hsp] Hws IH]; [done|].
  destruct ws as [|y ws].
  - change (String.concat " " [x]) with x.
    rewrite <-(str_app_nil_r x) at 1. rewrite split_loop_word by done.
    change ("" +:+ x) with x. cbn [split_loop].
    by rewrite bool_decide_eq_false_2.
  - change (split_loop "" (x +:+ String " " (String.concat " " (y :: ws)))
            = x :: y :: ws).
    rewrite split_loop_word by done. change ("" +:+ x) with x.
    rewrite split_loop_cons. change (isspace " ") with true. cbv iota.
    by rewrite bool_decide_eq_false_2, IH.
Qed.

(** The body of the loop reads a line through [split] only. *)
Lemma loop_body_split (raw1 raw2 : string) (w : world) :
  split raw1 = split raw2 → loop_body raw1 w = loop_body raw2 w.
Proof.
  intros Hsplit.
  assert (∀ raw, split raw = [] → loop_body raw w = Some (None, w)) as Hblank.
  { intros raw Hraw. unfold loop_body.
    destruct (decide (strip raw = "")) as [->|Hline]; [done|].
    destruct (split_strip_nonempty raw Hline) as (name & args & Htok).
    by rewrite split_strip, Hraw in Htok. }
  destruct (split raw2) as [|name args] eqn:H2.
  - by rewrite !Hblank.
  - rewrite <-split_strip in Hsplit, H2.
    by rewrite (loop_body_tokens raw1 name args w Hsplit),
               (loop_body_tokens raw2 name args w H2).
Qed.

(** X17.  Only the tokens of a line matter: every line is handled exactly
    as the line made of its tokens joined by single spaces, whatever
    whitespace surrounds or separates the tokens in it. *)
Theorem line_handled_by_tokens (raw : string) (w : world) :
  loop_body (join " " (split raw)) w = loop_body raw w.
Proof.
  apply loop_body_split, split_join, split_loop_words. done.
Qed.

Example line_tokens_joined :
  join " " (split "  set   a  1 ") = "set a 1".
Proof. reflexivity. Qed.

Lemma main_loop_stop (pre post : list stdin_event) (ev : stdin_event) (w : world) :
  stops ev = true →
  main_loop (pre ++ ev :: post) w = main_loop (pre ++ [ev]) w.
Proof.
  intros Hstop. revert w. induction pre as [|[raw| |] pre IH]; intros w.
  - destruct ev as [raw| |]; cbn [app main_loop]; [|done..].
    unfold bind at 1 3. cbn [prompt]. unfold bind at 1 2.
    destruct (loop_body raw _) as [[r w']|] eqn:Hbody; [|done].
    apply loop_body_result in Hbody as ->.
    cbn in Hstop. by rewrite Hstop.
  - cbn [app main_loop].
    unfold bind at 1 3. cbn [prompt]. unfold bind at 1 2.
    destruct (loop_body raw _) as [[[code|] w']|]; [done| |done].
    apply IH.
  - done.
  - done.
Qed.

(** X18.  [main] reads nothing after the line or the interrupt on which it
    returns: whatever follows an END line or an interrupt changes neither
    the code returned, nor the output, nor the store. *)
Theorem input_after_stop_ignored (pre post : list stdin_event) (ev : stdin_event) :
  stops ev = true →
  main (pre ++ ev :: post) = main (pre ++ [ev]).
Proof. intros Hstop. by apply main_loop_stop. Qed.

Lemma input_after_stop_ignored_witness :
  main ([Line "SET a 1"] ++ Line "end" :: [Line "GET a"; Interrupt])
  = main ([Line "SET a 1"] ++ [Line "end"]).
Proof.
  apply (input_after_stop_ignored [Line "SET a 1"] [Line "GET a"; Interrupt]
           (Line "end")).
  reflexivity.
Defined.

(** ** When ERROR is the answer *)

(** A handler of the table is listed there with the number of arguments it
    accepts: given that many it makes its one call, given another number it
    refuses. *)
Lemma handler_by_arity (w : world) (cmd : string)
    (handler : list string → M bool) (args : list string) :
  _layers (w_db w) ≠ [] →
  COMMANDS !! cmd = Some handler →
  ∃ n, (cmd, n) ∈ spec_command_table ∧ cmd ≠ "END" ∧
       if decide (length args = n) then ∃ c, performs c (handler args) w
       else handler args w = Some (false, w).
Proof.
  intros Hw Hin%elem_of_list_to_map_2.
  rewrite !elem_of_cons, elem_of_nil in Hin.
  repeat (destruct Hin as [[= -> ->]|Hin]); [..|done].
  - exists 2%nat. split; [unfold spec_command_table; rewrite !elem_of_cons; tauto|].
    split; [done|]. case_decide as Hlen; [|by apply handle_set_arity].
    destruct args as [|a0 [|a1 [|a2 args]]]; try done.
    eexists. by apply handle_set_run.
  - exists 1%nat. split; [unfold spec_command_table; rewrite !elem_of_cons; tauto|].
    split; [done|]. case_decide as Hlen; [|by apply handle_get_arity].
    destruct args as [|a0 [|a1 args]]; try done.
    eexists. by apply handle_get_run.
  - exists 1%nat. split; [unfold spec_command_table; rewrite !elem_of_cons; tauto|].
    split; [done|]. case_decide as Hlen; [|by apply handle_unset_arity].
    destruct args as [|a0 [|a1 args]]; try done.
    eexists. by apply handle_unset_run.
  - exists 1%nat. split; [unfold spec_command_table; rewrite !elem_of_cons; tauto|].
    split; [done|]. case_decide as Hlen; [|by apply handle_counts_arity].
    destruct args as [|a0 [|a1 args]]; try done.
    eexists. by apply handle_counts_run.
  - exists 1%nat. split; [unfold spec_command_table; rewrite !elem_of_cons; tauto|].
    split; [done|]. case_decide as Hlen; [|by apply handle_find_arity].
    destruct args as [|a0 [|a1 args]]; try done.
    eexists. by apply handle_find_run.
  - exists 0%nat. split; [unfold spec_command_table; rewrite !elem_of_cons; tauto|].
    split; [done|]. case_decide as Hlen; [|by apply handle_begin_arity].
    destruct args as [|a0 args]; try done.
    eexists. by apply handle_begin_run.
  - exists 0%nat. split; [unfold spec_command_table; rewrite !elem_of_cons; tauto|].
    split; [done|]. case_decide as Hlen; [|by apply handle_rollback_arity].
    destruct args as [|a0 args]; try done.
    eexists. by apply handle_rollback_run.
  - exists 0%nat. split; [unfold spec_command_table; rewrite !elem_of_cons; tauto|].
    split; [done|]. case_decide as Hlen; [|by apply handle_commit_arity].
    destruct args as [|a0 args]; try done.
    eexists. by apply handle_commit_run.
Qed.

(** X19.  On a store that has a layer, only a malformed line is answered
    by ERROR with no call on the store: its first token names no command
    of the table, or names one other than END with another number of
    arguments than the table gives.  A blank line, an END line and a line
    with the expected number of arguments are never answered so. *)
Theorem rejected_only_if_malformed (raw : string) (w : world) :
  _layers (w_db w) ≠ [] →
  rejected raw w →
  wrong_arity raw ∧ ¬ names_end raw ∨ unknown_command raw.
Proof.
  intros Hw Hrej. unfold rejected in Hrej.
  destruct (decide (strip raw = "")) as [Hblank|Hline].
  { exfalso. unfold loop_body in Hrej. rewrite Hblank in Hrej. cbn in Hrej.
    injection Hrej as Hrej. apply (f_equal (length ∘ w_out)) in Hrej.
    cbn in Hrej. rewrite length_app in Hrej. cbn in Hrej. lia. }
  destruct (split_strip_nonempty raw Hline) as (name & args & Htok).
  rewrite (loop_body_tokens raw name args w Htok) in Hrej.
  case_bool_decide as Hend; [done|].
  destruct (COMMANDS !! upper name) as [handler|] eqn:Hcmd.
  - destruct (handler_by_arity w _ _ args Hw Hcmd) as (n & Hin & _ & Hcases).
    case_decide as Hlen.
    + exfalso. destruct Hcases as (c & db' & out & Hrun & _).
      unfold bind in Hrej. rewrite Hrun in Hrej. cbn in Hrej.
      injection Hrej as _ _ Hcalls. apply (f_equal length) in Hcalls.
      rewrite length_app in Hcalls. cbn in Hcalls. lia.
    + left. split; [by exists name, args, n|].
      intros (name' & args' & Htok' & Hend'). rewrite Htok in Htok'.
      by injection Htok' as <- _.
  - right. exists name, args. split; [done|].
    apply not_elem_of_list_to_map_2 in Hcmd.
    intros Hin. apply Hcmd. cbn in Hin |- *.
    rewrite !elem_of_cons, elem_of_nil in Hin. rewrite !elem_of_cons. tauto.
Qed.

Lemma rejected_only_if_malformed_witness :
  wrong_arity "GET" ∧ ¬ names_end "GET" ∨ unknown_command "GET".
Proof.
  apply (rejected_only_if_malformed "GET" (mkWorld __init__ [] [])).
  - discriminate.
  - reflexivity.
Defined.
